(** * gitproc: the checkout pool allocator of [src/api.ts]

    A shallow embedding of the pool operations [listCheckouts],
    [acquireCheckout], [releaseCheckout] and [removeCheckout], and the
    properties of the allocator stated over it.

    Vocabulary.  The design document speaks of slots; the code speaks of
    checkouts.  The correspondence used throughout is

      slot name        = column [checkout]        ([checkout-<n>])
      repository_key   = column [repo]
      owner            = column [pid]
      acquired_at      = column [timestamp]
      acquire/release/remove = [acquireCheckout]/[releaseCheckout]/[removeCheckout]
      CapacityExceeded       = [MaximumCheckoutsReached]
      SlotProvisioningFailed = [WorktreeCreationFailed]
      NotFound               = [DoesNotExist]
      NotLocked              = [IsNotLocked]

    Modelling choices.
    - The SQLite table [checkout_metadata] is a list of rows in rowid
      order: [INSERT] appends (and fails on an existing primary key),
      [UPDATE]/[DELETE ... WHERE checkout = ?] act on every row of that
      name, [SELECT ... LIMIT 1] and [.get] return the first match of the
      table scan.  A [SELECT] of the key column alone is answered from
      the index of the key, in the order of the names; where the order
      can be seen ([filterCheckouts]) it is modelled so.
    - JavaScript numbers are integers of [Z]; this is exact from -2^53
      to 2^53.  A table reached from the empty pool holds numbers no
      larger than the count of acquires made; a statement about the
      number of a new name on a table given from outside carries the
      bound ([safeSlotNumbers], [exactNumber]).
    - Strings are 8-bit character strings; [parseInt] and [trim] treat the
      ASCII white space characters as white space.  Names of the form
      [checkout-<n>], the only ones the operations write, are read as the
      code reads them.
    - What the operating system answers (process id, clock, [existsSync],
      the exit status of each [git]/[rm] command, the output of
      [git remote get-url origin]) is read from a [Process] record, one per
      invocation.  Shell commands are logged in the world in the order
      they are run.
    - Opening the database and [mkdir -p] of the pool directories
      ([ensurePoolDirAndDb]) are taken to succeed and are not logged. *)

From Stdlib Require Import String Ascii List ZArith Lia Bool.
From Stdlib Require Import Decimal DecimalString DecimalZ DecimalPos DecimalFacts.
From Stdlib Require Hexadecimal HexadecimalString.
Import ListNotations.

Local Open Scope string_scope.
Local Open Scope Z_scope.

(** ** JavaScript string and number primitives *)

Module JS.

(** [StrWhiteSpaceChar], ASCII part: TAB, LF, VT, FF, CR, SP. *)
Definition isWhiteSpace (c : ascii) : bool :=
  let n := nat_of_ascii c in
  ((9 <=? n)%nat && (n <=? 13)%nat) || (n =? 32)%nat.

Fixpoint trimStart (s : string) : string :=
  match s with
  | String c s' => if isWhiteSpace c then trimStart s' else s
  | EmptyString => EmptyString
  end.

Fixpoint rev (s : string) : string :=
  match s with
  | EmptyString => EmptyString
  | String c s' => rev s' ++ String c EmptyString
  end.

Definition trimEnd (s : string) : string := rev (trimStart (rev s)).

(** [String.prototype.trim] *)
Definition trim (s : string) : string := trimEnd (trimStart s).

Fixpoint stripPrefix (p s : string) : option string :=
  match p, s with
  | EmptyString, _ => Some s
  | String a p', String b s' => if Ascii.eqb a b then stripPrefix p' s' else None
  | String _ _, EmptyString => None
  end.

(** [s.replace(pat, rep)] with a string pattern: the first occurrence of
    [pat] is replaced, the rest of [s] is kept. *)
Fixpoint replace (pat rep s : string) : string :=
  match stripPrefix pat s with
  | Some rest => rep ++ rest
  | None =>
      match s with
      | EmptyString => EmptyString
      | String c s' => String c (replace pat rep s')
      end
  end.

(** The decimal numeral spelled by the leading decimal digits of [s]
    ([Nil] when [s] does not start with a digit). *)
Fixpoint decPrefix (s : string) : Decimal.uint :=
  match s with
  | EmptyString => Decimal.Nil
  | String c s' =>
      match DecimalString.uint_of_char c (Some (decPrefix s')) with
      | Some d => d
      | None => Decimal.Nil
      end
  end.

Definition toLowerHex (c : ascii) : ascii :=
  let n := nat_of_ascii c in
  if ((65 <=? n)%nat && (n <=? 70)%nat)%bool then ascii_of_nat (n + 32) else c.

(** The same for hexadecimal digits of either case. *)
Fixpoint hexPrefix (s : string) : Hexadecimal.uint :=
  match s with
  | EmptyString => Hexadecimal.Nil
  | String c s' =>
      match HexadecimalString.uint_of_char (toLowerHex c) (Some (hexPrefix s')) with
      | Some d => d
      | None => Hexadecimal.Nil
      end
  end.

Definition stripSign (s : string) : bool * string :=
  match s with
  | String "-" s' => (true, s')
  | String "+" s' => (false, s')
  | _ => (false, s)
  end.

Definition stripHexPrefix (s : string) : option string :=
  match s with
  | String "0" (String "x" s') => Some s'
  | String "0" (String "X" s') => Some s'
  | _ => None
  end.

Definition applySign (neg : bool) (z : Z) : Z := if neg then - z else z.

(** [parseInt(s)] without a radix argument; [None] is [NaN]. *)
Definition parseInt (s : string) : option Z :=
  let '(neg, s1) := stripSign (trimStart s) in
  match stripHexPrefix s1 with
  | Some h =>
      match hexPrefix h with
      | Hexadecimal.Nil => None
      | d => Some (applySign neg (Z.of_hex_uint d))
      end
  | None =>
      match decPrefix s1 with
      | Decimal.Nil => None
      | d => Some (applySign neg (Z.of_uint d))
      end
  end.

(** Number to string for an integer, as in a template literal. *)
Definition toString (z : Z) : string := DecimalString.NilZero.string_of_int (Z.to_int z).

(** [Math.max(...nums)] of a non-empty array, given as head and tail. *)
Definition max (n : Z) (nums : list Z) : Z := fold_left Z.max nums n.

End JS.

(** ** Data model *)

(** A row of [checkout_metadata] (interface [CheckoutMetadata]). *)
Record CheckoutMetadata : Type := mkRow {
  checkout : string;
  repo : string;
  pid : option Z;
  timestamp : option string;
  status : string
}.

Record AcquireResult : Type := mkResult {
  id : string;
  directory : string
}.

Record ParallelToolOptions : Type := mkOptions {
  maxParallelism : Z;
  toolRepo : option string
}.

(** The table, in rowid order. *)
Definition Table : Type := list CheckoutMetadata.

(** Shell commands run through [Bun.$]. *)
Inductive Command : Type :=
| GitRemoteGetUrlOrigin
| GitCloneBare (repoUrl sharedRepoDir : string)
| GitFetchAllPrune (sharedRepoDir : string)
| GitWorktreeAdd (sharedRepoDir dir : string)
| GitWorktreeRemoveForce (sharedRepoDir dir : string)
| RmRf (dir : string).

(** The exceptions the operations throw, one constructor per throw site. *)
Inductive Error : Type :=
| ZodError (message : string)
| ShellError (cmd : Command)
| CouldNotInferRepository
| MaximumCheckoutsReached (maxCheckouts : Z) (repoKey : string)
| SqliteConstraintPrimaryKey (name : string)
| WorktreeCreationFailed (cause : Error)
| DoesNotExist (name : string)
| IsNotLocked (name : string).

(** Pool configuration: [HOME], and the directory of the shared bare
    repository of a URL ([getSharedRepoDir]: a SHA-256 digest joined under
    [SHARED_REPOS_DIR], kept abstract). *)
Record Env : Type := mkEnv {
  HOME : string;
  getSharedRepoDir : string -> string
}.

Definition POOL_DIR (E : Env) : string := HOME E ++ "/.gitproc_pool".

(** What one invocation observes of its surroundings. *)
Record Process : Type := mkProcess {
  processPid : Z;                 (* process.pid *)
  nowISO : string;                (* new Date().toISOString() *)
  originStdout : string;          (* stdout of git remote get-url origin *)
  existsSync : string -> bool;
  succeeds : Command -> bool      (* exit status 0 *)
}.

Record World : Type := mkWorld {
  table : Table;
  shell : list Command
}.

(** ** The store *)

Definition named (name : string) (r : CheckoutMetadata) : bool :=
  String.eqb (checkout r) name.

(** [SELECT ... WHERE checkout = ?] with [.get]. *)
Definition selectByCheckout (name : string) (t : Table) : option CheckoutMetadata :=
  find (named name) t.

(** [SELECT checkout ... WHERE repo = ? AND status = 'free' LIMIT 1]. *)
Definition selectFree (repoKey : string) (t : Table) : option CheckoutMetadata :=
  find (fun r => String.eqb (repo r) repoKey && String.eqb (status r) "free") t.

(** [row && row.checkout]: the name of the selected row, when a row was
    found and its name is not the empty string. *)
Definition freeCheckout (repoKey : string) (t : Table) : option string :=
  match selectFree repoKey t with
  | Some row => if String.eqb (checkout row) "" then None else Some (checkout row)
  | None => None
  end.

(** [SELECT COUNT( * ) ... WHERE repo = ?]. *)
Definition countRepo (repoKey : string) (t : Table) : Z :=
  Z.of_nat (length (filter (fun r => String.eqb (repo r) repoKey) t)).

(** [INSERT]: refused when the primary key is taken. *)
Definition insertRow (r : CheckoutMetadata) (t : Table) : option Table :=
  if existsb (named (checkout r)) t then None else Some (t ++ [r])%list.

(** [UPDATE ... SET pid = ?, timestamp = ?, status = ? WHERE checkout = ?]. *)
Definition updateWhere (name : string) (p : option Z) (ts : option string)
    (st : string) (t : Table) : Table :=
  map (fun r => if named name r
                then mkRow (checkout r) (repo r) p ts st
                else r) t.

(** [DELETE ... WHERE checkout = ?]. *)
Definition deleteWhere (name : string) (t : Table) : Table :=
  filter (fun r => negb (named name r)) t.

(** [allRows.map(r => parseInt((r.checkout || '').replace('checkout-', '')))
    .filter(n => !isNaN(n))]. *)
Definition parseCheckoutNum (name : string) : option Z :=
  JS.parseInt (JS.replace "checkout-" "" name).

Fixpoint checkoutNums (t : Table) : list Z :=
  match t with
  | [] => []
  | r :: t' =>
      match parseCheckoutNum (checkout r) with
      | Some n => n :: checkoutNums t'
      | None => checkoutNums t'
      end
  end.

(** [nums.length ? Math.max(...nums) + 1 : 1]. *)
Definition nextNum (t : Table) : Z :=
  match checkoutNums t with
  | [] => 1
  | n :: ns => JS.max n ns + 1
  end.

Definition checkoutName (n : Z) : string := "checkout-" ++ JS.toString n.

(** ** Operations *)

(** A computation reads and changes the world and either throws or
    returns; what it did to the world before throwing stays done. *)
Definition M (A : Type) : Type := World -> (Error + A) * World.

Definition ret {A} (a : A) : M A := fun w => (inr a, w).
Definition throw {A} (e : Error) : M A := fun w => (inl e, w).
Definition bind {A B} (m : M A) (k : A -> M B) : M B :=
  fun w => match m w with
           | (inr a, w') => k a w'
           | (inl e, w') => (inl e, w')
           end.
Definition tryCatch {A} (m : M A) (handler : Error -> M A) : M A :=
  fun w => match m w with
           | (inr a, w') => (inr a, w')
           | (inl e, w') => handler e w'
           end.

Notation "x <- m ;; k" := (bind m (fun x => k))
  (at level 61, m at next level, right associativity).
Notation "m ;;; k" := (bind m (fun _ => k))
  (at level 61, right associativity).

Definition getTable : M Table := fun w => (inr (table w), w).
Definition setTable (t : Table) : M unit :=
  fun w => (inr tt, mkWorld t (shell w)).

(** [await Bun.$`cmd`]: the command is run; a non-zero exit throws. *)
Definition sh (P : Process) (cmd : Command) : M unit :=
  fun w =>
    let w' := mkWorld (table w) (shell w ++ [cmd])%list in
    if succeeds P cmd then (inr tt, w') else (inl (ShellError cmd), w').

(** [BEGIN TRANSACTION; try { body; COMMIT } catch { ROLLBACK; throw }]. *)
Definition transaction {A} (body : M A) : M A :=
  fun w => match body w with
           | (inr a, w') => (inr a, w')
           | (inl e, w') => (inl e, mkWorld (table w) (shell w'))
           end.

Definition listCheckouts (w : World) : list CheckoutMetadata :=
  map (fun row => mkRow (checkout row) (repo row) (pid row) (timestamp row) (status row))
      (table w).

Definition ensureSharedRepo (E : Env) (P : Process) (repoUrl : string) : M string :=
  let sharedRepoDir := getSharedRepoDir E repoUrl in
  (if existsSync P sharedRepoDir
   then sh P (GitFetchAllPrune sharedRepoDir)
   else sh P (GitCloneBare repoUrl sharedRepoDir)) ;;;
  ret sharedRepoDir.

(** Lines 94-101: schema check of the argument, then the repository is
    the argument or the origin of the working directory. *)
Definition resolveRepo (P : Process) (repoArg : option string) : M string :=
  match repoArg with
  | Some EmptyString => throw (ZodError "Repository URL or name is required")
  | Some r => ret r
  | None =>
      sh P GitRemoteGetUrlOrigin ;;;
      let r := JS.trim (originStdout P) in
      if String.eqb r "" then throw CouldNotInferRepository else ret r
  end.

(** Lines 107-113. *)
Definition limitActive (maxCheckouts : option Z) : option Z :=
  match maxCheckouts with
  | Some m => if 0 <? m then Some m else None
  | None => None
  end.

Definition checkMaxCheckouts (maxCheckouts : option Z) (repoKey : string) : M unit :=
  match limitActive maxCheckouts with
  | Some m =>
      t <- getTable ;;
      if m <=? countRepo repoKey t
      then throw (MaximumCheckoutsReached m repoKey)
      else ret tt
  | None => ret tt
  end.

(** Lines 115-140: the result is [(checkout, directory, isNew)]. *)
Definition acquireTransaction (E : Env) (P : Process) (repoKey : string)
    : M (string * string * bool) :=
  transaction (
    t <- getTable ;;
    match freeCheckout repoKey t with
    | Some name =>
        setTable (updateWhere name (Some (processPid P)) (Some (nowISO P)) "locked" t) ;;;
        ret (name, POOL_DIR E ++ "/" ++ name, false)
    | None =>
        let name := checkoutName (nextNum t) in
        match insertRow (mkRow name repoKey (Some (processPid P)) (Some (nowISO P)) "locked") t with
        | Some t' =>
            setTable t' ;;;
            ret (name, POOL_DIR E ++ "/" ++ name, true)
        | None => throw (SqliteConstraintPrimaryKey name)
        end
    end).

(** Lines 144-148, the body of the [try]: the shared repository is
    ensured, then the worktree is added. *)
Definition provisioning (E : Env) (P : Process) (repoKey dir : string) : M unit :=
  sharedRepoDir <- ensureSharedRepo E P repoKey ;;
  sh P (GitWorktreeAdd sharedRepoDir dir).

(** Lines 142-155. *)
Definition provision (E : Env) (P : Process) (repoKey name dir : string) : M unit :=
  tryCatch
    (provisioning E P repoKey dir)
    (fun cloneErr =>
       t <- getTable ;;
       setTable (deleteWhere name t) ;;;
       throw (WorktreeCreationFailed cloneErr)).

Definition acquireCheckout (E : Env) (P : Process) (repoArg : option string)
    (maxCheckouts : option Z) : M AcquireResult :=
  repoKey <- resolveRepo P repoArg ;;
  checkMaxCheckouts maxCheckouts repoKey ;;;
  r <- acquireTransaction E P repoKey ;;
  let '(name, dir, isNew) := r in
  (if isNew : bool then provision E P repoKey name dir else ret tt) ;;;
  ret (mkResult name dir).

Definition releaseCheckout (name : string) : M unit :=
  match name with
  | EmptyString => throw (ZodError "Checkout name is required")
  | _ =>
      t <- getTable ;;
      match selectByCheckout name t with
      | None => throw (DoesNotExist name)
      | Some row =>
          if String.eqb (status row) "locked"
          then setTable (updateWhere name None None "free" t)
          else throw (IsNotLocked name)
      end
  end.

Definition removeCheckout (E : Env) (P : Process) (name : string) : M unit :=
  match name with
  | EmptyString => throw (ZodError "Checkout name is required")
  | _ =>
      t <- getTable ;;
      match selectByCheckout name t with
      | None => throw (DoesNotExist name)
      | Some row =>
          let dir := POOL_DIR E ++ "/" ++ name in
          let sharedRepoDir := getSharedRepoDir E (repo row) in
          tryCatch (sh P (GitWorktreeRemoveForce sharedRepoDir dir))
                   (fun _ => sh P (RmRf dir)) ;;;
          t' <- getTable ;;
          setTable (deleteWhere name t')
      end
  end.

Definition acquireForTool (E : Env) (P : Process) (options : ParallelToolOptions)
    : M AcquireResult :=
  acquireCheckout E P (toolRepo options) (Some (maxParallelism options)).

(** ** Sequences of operations *)

Inductive Op : Type :=
| OpAcquire (P : Process) (repoArg : option string) (maxCheckouts : option Z)
| OpRelease (name : string)
| OpRemove (P : Process) (name : string).

Inductive Outcome : Type :=
| Acquired (r : AcquireResult)
| Released
| Removed
| Failed (e : Error).

Definition step (E : Env) (op : Op) (w : World) : Outcome * World :=
  match op with
  | OpAcquire P repoArg maxCheckouts =>
      match acquireCheckout E P repoArg maxCheckouts w with
      | (inr r, w') => (Acquired r, w')
      | (inl e, w') => (Failed e, w')
      end
  | OpRelease name =>
      match releaseCheckout name w with
      | (inr _, w') => (Released, w')
      | (inl e, w') => (Failed e, w')
      end
  | OpRemove P name =>
      match removeCheckout E P name w with
      | (inr _, w') => (Removed, w')
      | (inl e, w') => (Failed e, w')
      end
  end.

(** The operations are run in order; the log pairs each with its outcome. *)
Fixpoint run (E : Env) (ops : list Op) (w : World) : list (Op * Outcome) * World :=
  match ops with
  | [] => ([], w)
  | op :: ops' =>
      let '(out, w1) := step E op w in
      let '(log, w2) := run E ops' w1 in
      ((op, out) :: log, w2)
  end.

Definition emptyPool : World := mkWorld [] [].


(** ** Notions used in the statements

    [names], [lockedNames], [lockedRow], [dirOf] and [underLimit] name
    pieces of the code above.  [slotNumber], [maxSlotNumberPlusOne],
    [rowInvariant] and [held] follow the wording of the design document
    and are what the code is compared with. *)

Definition names (t : Table) : list string := map checkout t.

(** Names of the rows whose status is ['locked']. *)
Definition lockedNames (t : Table) : list string :=
  names (filter (fun r => String.eqb (status r) "locked") t).

(** The schema's [PRIMARY KEY]: no two rows of one name. *)
Definition primaryKey (t : Table) : Prop := NoDup (names t).

(** The row [acquireCheckout] writes for the caller. *)
Definition lockedRow (P : Process) (name repoKey : string) : CheckoutMetadata :=
  mkRow name repoKey (Some (processPid P)) (Some (nowISO P)) "locked".

(** [`${POOL_DIR}/${checkout}`]. *)
Definition dirOf (E : Env) (name : string) : string := POOL_DIR E ++ "/" ++ name.

(** The limit check passes when no positive limit is given or the count
    of rows of the repository is below it. *)
Definition underLimit (maxCheckouts : option Z) (repoKey : string) (t : Table) : bool :=
  match limitActive maxCheckouts with
  | Some m => countRepo repoKey t <? m
  | None => true
  end.

(** The design document's pattern [slot-<n>], which in the code is
    [checkout-<n>]: the prefix followed by a non-empty run of decimal
    digits; [n] is the number they spell. *)
Definition slotNumber (name : string) : option Z :=
  match JS.stripPrefix "checkout-" name with
  | Some ds => option_map Z.of_uint (DecimalString.NilZero.uint_of_string ds)
  | None => None
  end.

Definition isSlotName (name : string) : bool :=
  match slotNumber name with Some _ => true | None => false end.

(** Every stored name has the form [checkout-<n>]. *)
Definition allSlotNames (t : Table) : bool :=
  forallb (fun r => isSlotName (checkout r)) t.

(** The numbers of the stored names of the form [checkout-<n>]. *)
Fixpoint slotNumbers (t : Table) : list Z :=
  match t with
  | [] => []
  | r :: t' =>
      match slotNumber (checkout r) with
      | Some n => n :: slotNumbers t'
      | None => slotNumbers t'
      end
  end.

(** The design document's next number: [max(n) + 1] over those numbers,
    starting at 1 when there is none. *)
Definition maxSlotNumberPlusOne (t : Table) : Z :=
  match slotNumbers t with
  | [] => 1
  | n :: ns => fold_right Z.max n ns + 1
  end.

(** The design document's row invariant: ['locked'] implies owner and
    acquired_at set, ['free'] implies both null, one row per name. *)
Definition rowWellFormed (r : CheckoutMetadata) : Prop :=
  (status r = "locked" -> pid r <> None /\ timestamp r <> None) /\
  (status r = "free" -> pid r = None /\ timestamp r = None).

Definition rowInvariant (t : Table) : Prop :=
  primaryKey t /\ Forall rowWellFormed t.

Definition removeName (n : string) (l : list string) : list string :=
  filter (fun m => negb (String.eqb m n)) l.

(** The design document's names "returned by acquire calls not yet
    matched by a release": those handed out by an [acquireCheckout] of
    the log and not named by a later [releaseCheckout] call, on top of
    [acc]. *)
Fixpoint held (log : list (Op * Outcome)) (acc : list string) : list string :=
  match log with
  | [] => acc
  | (_, Acquired r) :: log' => held log' (id r :: acc)
  | (OpRelease n, _) :: log' => held log' (removeName n acc)
  | _ :: log' => held log' acc
  end.

Definition isRemove (op : Op) : bool :=
  match op with OpRemove _ _ => true | _ => false end.

Definition noRemove (ops : list Op) : bool := forallb (fun op => negb (isRemove op)) ops.

(** The names a log reports as handed out, oldest first. *)
Fixpoint acquiredNames (log : list (Op * Outcome)) : list string :=
  match log with
  | [] => []
  | (_, Acquired r) :: log' => id r :: acquiredNames log'
  | _ :: log' => acquiredNames log'
  end.

(** ** Concrete surroundings for the examples *)

Definition exampleEnv : Env :=
  mkEnv "/home/u" (fun repoUrl => "/home/u/.gitproc_pool/shared_repos/" ++ repoUrl).

(** A process for which every command succeeds. *)
Definition exampleProcess : Process :=
  mkProcess 4242 "2024-01-01T00:00:00.000Z" "https://x/repo.git" (fun _ => false) (fun _ => true).

(** A process for which every command fails. *)
Definition failingProcess : Process :=
  mkProcess 4343 "2024-01-02T00:00:00.000Z" "" (fun _ => false) (fun _ => false).

(** A pool with [checkout-1] free for repository [A]. *)
Definition poolOneFree : World :=
  mkWorld [mkRow "checkout-1" "A" None None "free"] [].

(** A pool with [checkout-1] locked for [A] and [checkout-3] free for [B]. *)
Definition poolTwo : World :=
  mkWorld [mkRow "checkout-1" "A" (Some 7) (Some "2023-12-31T00:00:00.000Z") "locked";
           mkRow "checkout-3" "B" None None "free"] [].

(** The five ways in which an operation can leave the table. *)
Inductive tableStep (t : Table) : Table -> Prop :=
| ts_same : tableStep t t
| ts_lock name p ts :
    tableStep t (updateWhere name (Some p) (Some ts) "locked" t)
| ts_insert repoKey p ts :
    tableStep t (t ++ [mkRow (checkoutName (nextNum t)) repoKey (Some p) (Some ts) "locked"])%list
| ts_free name :
    tableStep t (updateWhere name None None "free" t)
| ts_delete name :
    tableStep t (deleteWhere name t).

(** What the table and the names handed out have in common while no
    checkout is removed: the names held are the names locked. *)
Definition lockedAreHeld (t : Table) (acc : list string) : Prop :=
  primaryKey t /\ ~ In "" (names t) /\
  forall n, In n (lockedNames t) <-> In n acc.

(** The list of names after one logged operation. *)
Definition heldStep (op : Op) (out : Outcome) (acc : list string) : list string :=
  match out, op with
  | Acquired r, _ => id r :: acc
  | _, OpRelease n => removeName n acc
  | _, _ => acc
  end.

(** ** Further notions: limits, commands, shapes of rows *)

(** Every acquire of the list carries a positive limit of at most [m]. *)
Definition limitedBy (m : Z) (ops : list Op) : bool :=
  forallb (fun op =>
             match op with
             | OpAcquire _ _ (Some k) => (0 <? k) && (k <=? m)
             | OpAcquire _ _ None => false
             | _ => true
             end) ops.

(** The command [ensureSharedRepo] runs for a repository. *)
Definition mirrorCommand (E : Env) (P : Process) (repoUrl : string) : Command :=
  if existsSync P (getSharedRepoDir E repoUrl)
  then GitFetchAllPrune (getSharedRepoDir E repoUrl)
  else GitCloneBare repoUrl (getSharedRepoDir E repoUrl).

(** The commands of lines 144-148 for a new checkout [name]. *)
Definition provisioningCommands (E : Env) (P : Process) (repoKey name : string)
    : list Command :=
  mirrorCommand E P repoKey ::
  (if succeeds P (mirrorCommand E P repoKey)
   then [GitWorktreeAdd (getSharedRepoDir E repoKey) (dirOf E name)]
   else []).

(** The directory of a checkout, [POOL_DIR/checkout-<n>], and the
    directory of the shared clone of a repository. *)
Definition inPool (E : Env) (dir : string) : Prop :=
  exists name, isSlotName name = true /\ dir = dirOf E name.

Definition sharedDir (E : Env) (dir : string) : Prop :=
  exists repoUrl, dir = getSharedRepoDir E repoUrl.

(** Where each command of the operations works: a clone writes the shared
    directory of the repository it clones, a fetch works in a shared
    directory, a worktree is added to or removed from a shared directory
    at a checkout directory, and [rm -rf] deletes a checkout directory. *)
Definition commandInPool (E : Env) (cmd : Command) : Prop :=
  match cmd with
  | GitRemoteGetUrlOrigin => True
  | GitCloneBare repoUrl dir => dir = getSharedRepoDir E repoUrl
  | GitFetchAllPrune dir => sharedDir E dir
  | GitWorktreeAdd shared dir => sharedDir E shared /\ inPool E dir
  | GitWorktreeRemoveForce shared dir => sharedDir E shared /\ inPool E dir
  | RmRf dir => inPool E dir
  end.

(** ** The range in which the numbers of the code are integers

    A number of the code is a double.  Every integer from [-2^53] to
    [2^53] is one, [Math.max] and [+ 1] are exact as long as the result
    stays in that range, and a template literal prints such a number in
    decimal.  Beyond, [n + 1] rounds and, from [10^21], the literal
    prints an exponent: there [nextNum] and [checkoutName], which compute
    in [Z], are no longer what the code computes.  When every stored
    number is at most [MAX_SAFE_INTEGER], the next number is at most
    [2^53]. *)
Definition MAX_SAFE_INTEGER : Z := 2 ^ 53 - 1.

Definition exactNumber (z : Z) : Prop := - 2 ^ 53 <= z <= 2 ^ 53.

Definition safeSlotNumbers (t : Table) : bool :=
  forallb (fun n => n <=? MAX_SAFE_INTEGER) (slotNumbers t).

(** What the rows the operations write look like. *)
Definition rowShape (r : CheckoutMetadata) : Prop :=
  (status r = "free" \/ status r = "locked")
  /\ repo r <> ""
  /\ exists n, 1 <= n /\ checkout r = checkoutName n.

(** ** [getSharedRepoDir]: the name of a shared repository

    [getSharedRepoDir] is a parameter of [Env] above.  Its source joins
    [SHARED_REPOS_DIR] with [`${repoName}-${hash}`]; the digest and
    [path.join] stay parameters here, the name is modelled. *)

Definition SHARED_REPOS_DIR (E : Env) : string := POOL_DIR E ++ "/shared_repos".

Fixpoint contains (c : ascii) (s : string) : bool :=
  match s with
  | EmptyString => false
  | String a s' => Ascii.eqb a c || contains c s'
  end.

(** [s.split(sep)] for a separator of one character. *)
Fixpoint splitOn (sep : ascii) (s : string) : list string :=
  match s with
  | EmptyString => [EmptyString]
  | String c s' =>
      if Ascii.eqb c sep then EmptyString :: splitOn sep s'
      else match splitOn sep s' with
           | seg :: segs => String c seg :: segs
           | [] => [String c EmptyString]
           end
  end.

(** [s.replace(/\.git$/, '')]. *)
Definition stripGitSuffix (s : string) : string :=
  match JS.stripPrefix "tig." (JS.rev s) with
  | Some r => JS.rev r
  | None => s
  end.

(** [repoUrl.split('/').pop()?.replace(/\.git$/, '') || 'repo']. *)
Definition repoName (repoUrl : string) : string :=
  let name := stripGitSuffix (last (splitOn "/" repoUrl) EmptyString) in
  if String.eqb name "" then "repo" else name.

Definition getSharedRepoDirWith (sha256hex : string -> string)
    (pathJoin : string -> string -> string) (E : Env) (repoUrl : string) : string :=
  let hash := substring 0 12 (sha256hex repoUrl) in
  pathJoin (SHARED_REPOS_DIR E) (repoName repoUrl ++ "-" ++ hash).

(** ** [filterCheckouts] and the command line

    What the JavaScript runtime contributes is a parameter: the regular
    expression engine, and the texts of the errors that the code does not
    word itself. *)

Record Runtime : Type := mkRuntime {
  regExp : string -> option (string -> bool);   (* new RegExp(p), then .test; None: SyntaxError *)
  regExpMessage : string -> string;             (* message of that SyntaxError *)
  zodMessage : string -> string;                (* message of the ZodError of a schema *)
  shellMessage : Command -> string;             (* message of the error of a failed command *)
  causeToString : Error -> string;              (* `${cloneErr}` *)
  sqliteMessage : string -> string
}.

(** What can be thrown at the command line: an error of the operations,
    the [SyntaxError] of a pattern, or an [Error] with a message. *)
Inductive Thrown : Type :=
| ApiError (e : Error)
| RegExpSyntaxError (pattern : string)
| CliError (message : string).

(** [SELECT checkout FROM checkout_metadata] reads one column, the
    primary key: SQLite answers it from the index of the key, so the rows
    come in the order of their names, byte by byte and a prefix first
    ([checkout-10] before [checkout-2]), not in the order of insertion. *)
Fixpoint insertByName (row : CheckoutMetadata) (rows : list CheckoutMetadata)
    : list CheckoutMetadata :=
  match rows with
  | [] => [row]
  | r :: rows' =>
      if String.leb (checkout row) (checkout r) then row :: rows
      else r :: insertByName row rows'
  end.

Definition selectCheckoutColumn (t : Table) : list CheckoutMetadata :=
  fold_right insertByName [] t.

Definition filterCheckouts (R : Runtime) (pattern : string) (w : World)
    : (Thrown + list string) * World :=
  match pattern with
  | EmptyString => (inl (ApiError (ZodError "Pattern is required")), w)
  | _ =>
      match regExp R pattern with
      | None => (inl (RegExpSyntaxError pattern), w)
      | Some test =>
          let rows := selectCheckoutColumn (table w) in
          (inr (map checkout (filter (fun row => test (checkout row)) rows)), w)
      end
  end.

(** [(err as Error).message]. *)
Definition errorMessage (R : Runtime) (e : Error) : string :=
  match e with
  | ZodError m => zodMessage R m
  | ShellError cmd => shellMessage R cmd
  | CouldNotInferRepository =>
      "Could not infer repository from current directory. Please specify a repo URL or name."
  | MaximumCheckoutsReached m repoKey =>
      "Maximum checkouts limit (" ++ JS.toString m ++ ") reached for repository: " ++ repoKey
  | SqliteConstraintPrimaryKey name => sqliteMessage R name
  | WorktreeCreationFailed cause => "git worktree creation failed: " ++ causeToString R cause
  | DoesNotExist name => name ++ " does not exist in the pool"
  | IsNotLocked name => name ++ " is not locked"
  end.

Definition thrownMessage (R : Runtime) (t : Thrown) : string :=
  match t with
  | ApiError e => errorMessage R e
  | RegExpSyntaxError pattern => regExpMessage R pattern
  | CliError message => message
  end.

Inductive Output : Type :=
| Stdout (line : string)      (* console.log *)
| Stderr (line : string).     (* console.error *)

(** How an invocation ends: [process.exit(n)], or [main] returns. *)
Inductive Exit : Type :=
| ExitCode (n : Z)
| Returned.

Definition newline : string := String (ascii_of_nat 10) EmptyString.

Definition usageText : string :=
  newline ++ "Usage: gitproc <command> [args]" ++ newline ++ newline ++
  "Commands:" ++ newline ++
  "  list, ls                List all slots and their lock status" ++ newline ++
  "  filter, -F, grep <pat>  Filter slots by name matching pattern" ++ newline ++
  "  acquire, a <slot>       Manually acquire lock on a slot (prints directory and id)" ++ newline ++
  "  release, r <id>         Release lock on slot by id (not directory)" ++ newline ++
  "  remove, rm <id>         Remove a checkout completely (deletes worktree)" ++ newline ++
  "  help, -h, --help        Show this help message" ++ newline.

Definition usage : list Output := [Stdout usageText].

(** [`${row.pid}`] and [`${row.timestamp}`] of a nullable column. *)
Definition showPid (p : option Z) : string :=
  match p with Some n => JS.toString n | None => "null" end.

Definition showTimestamp (ts : option string) : string :=
  match ts with Some s => s | None => "null" end.

Definition listLine (row : CheckoutMetadata) : string :=
  if String.eqb (status row) "locked"
  then checkout row ++ ": LOCKED PID=" ++ showPid (pid row) ++ " REPO=" ++ repo row
       ++ " at " ++ showTimestamp (timestamp row)
  else checkout row ++ ": free".

Definition cmdList (w : World) : list Output :=
  match listCheckouts w with
  | [] => [Stdout "No checkouts found in the pool. Use 'acquire' to create one."]
  | rows => map (fun row => Stdout (listLine row)) rows
  end.

Definition cmdFilter (R : Runtime) (pattern : string) (w : World)
    : (Thrown + list Output) * World :=
  match filterCheckouts R pattern w with
  | (inr checkouts, w') => (inr (map Stdout checkouts), w')
  | (inl t, w') => (inl t, w')
  end.

Definition cmdAcquire (E : Env) (P : Process) (repoArg : option string) (w : World)
    : (Thrown + list Output) * World :=
  match acquireCheckout E P repoArg None w with
  | (inr result, w') =>
      (inr [Stdout (directory result); Stdout ("(id: " ++ id result ++ ")")], w')
  | (inl e, w') => (inl (ApiError e), w')
  end.

Definition cmdRelease (name : string) (w : World) : (Thrown + list Output) * World :=
  match releaseCheckout name w with
  | (inr _, w') => (inr [Stdout ("Released " ++ name)], w')
  | (inl e, w') => (inl (ApiError e), w')
  end.

Definition cmdRemove (E : Env) (P : Process) (name : string) (w : World)
    : (Thrown + list Output) * World :=
  match removeCheckout E P name w with
  | (inr _, w') => (inr [Stdout ("Removed " ++ name)], w')
  | (inl e, w') => (inl (ApiError e), w')
  end.

Definition oneOf (s : string) (l : list string) : bool := existsb (String.eqb s) l.

(** [args[0]] when it is truthy. *)
Definition firstArg (args : list string) : option string :=
  match args with
  | a :: _ => if String.eqb a "" then None else Some a
  | [] => None
  end.

(** The [switch] of [main]: what is printed and how the [try] block is
    left, or what it throws. *)
Definition dispatch (R : Runtime) (E : Env) (P : Process) (cmd : string)
    (args : list string) (w : World) : (Thrown + list Output * Exit) * World :=
  let finish (r : (Thrown + list Output) * World) :=
    match r with
    | (inr out, w') => (inr (out, Returned), w')
    | (inl t, w') => (inl t, w')
    end in
  if oneOf cmd ["list"; "ls"] then (inr (cmdList w, Returned), w)
  else if oneOf cmd ["filter"; "-F"; "grep"] then
    match firstArg args with
    | Some pattern => finish (cmdFilter R pattern w)
    | None => (inl (CliError "Pattern required for filter"), w)
    end
  else if oneOf cmd ["acquire"; "a"] then finish (cmdAcquire E P (hd_error args) w)
  else if oneOf cmd ["release"; "r"] then
    match firstArg args with
    | Some name => finish (cmdRelease name w)
    | None => (inl (CliError "Checkout required for release"), w)
    end
  else if oneOf cmd ["remove"; "rm"] then
    match firstArg args with
    | Some name => finish (cmdRemove E P name w)
    | None => (inl (CliError "Checkout required for remove"), w)
    end
  else (inr (Stdout ("Unknown command: " ++ cmd) :: usage, ExitCode 1), w).

(** [main], on [Bun.argv.slice(2)]. *)
Definition main (R : Runtime) (E : Env) (P : Process) (argv : list string) (w : World)
    : list Output * Exit * World :=
  match argv with
  | [] => (usage, ExitCode 0, w)
  | cmd :: args =>
      if oneOf cmd ["help"; "--help"; "-h"; "-H"] then (usage, ExitCode 0, w)
      else match dispatch R E P cmd args w with
           | (inr (out, exit), w') => (out, exit, w')
           | (inl err, w') => (Stderr (thrownMessage R err) :: usage, ExitCode 1, w')
           end
  end.

(** ** The example tool ([runParallelTasks]); the pause that stands for
    the work is not modelled. *)

Definition toolOptions : ParallelToolOptions :=
  mkOptions 3 (Some "https://github.com/example/repo.git").

Definition runParallelTasks (R : Runtime) (E : Env) (P : Process) (w : World)
    : list Output * World :=
  let start := Stdout "Acquiring checkout with max parallelism of 3..." in
  match acquireForTool E P toolOptions w with
  | (inl e, w1) => ([start; Stderr ("Error: " ++ errorMessage R e)], w1)
  | (inr result, w1) =>
      let got := [Stdout ("Got checkout: " ++ directory result);
                  Stdout ("Checkout ID: " ++ id result);
                  Stdout "Doing some work..."] in
      match releaseCheckout (id result) w1 with
      | (inr _, w2) => (start :: got ++ [Stdout "Released checkout"], w2)
      | (inl e, w2) => (start :: got ++ [Stderr ("Error: " ++ errorMessage R e)], w2)
      end
  end.

(** A runtime for the examples: a pattern accepts the names it is a
    prefix of. *)
Definition exampleRuntime : Runtime :=
  mkRuntime (fun pattern => Some (fun s => String.prefix pattern s))
            (fun pattern => "Invalid regular expression")
            (fun m => m)
            (fun cmd => "Failed with exit code 1")
            (fun e => "ShellError: Failed with exit code 1")
            (fun name => "UNIQUE constraint failed").

(** A pool in which three checkouts of the example repository exist and
    all are free. *)
Definition poolThreeFree : World :=
  mkWorld [mkRow "checkout-1" "https://github.com/example/repo.git" None None "free";
           mkRow "checkout-2" "https://github.com/example/repo.git" None None "free";
           mkRow "checkout-3" "https://github.com/example/repo.git" None None "free"] [].

(** ** Reading back a printed number *)

Module JSFacts.
Import JS.

Abbreviation digits := DecimalString.NilEmpty.string_of_uint.

Lemma trimStart_digits d : trimStart (digits d) = digits d.
Proof. destruct d; reflexivity. Qed.

Lemma stripSign_digits d : stripSign (digits d) = (false, digits d).
Proof. destruct d; reflexivity. Qed.

Lemma stripHexPrefix_digits d : stripHexPrefix (digits d) = None.
Proof. destruct d as [|d| | | | | | | | |]; try reflexivity; destruct d; reflexivity. Qed.

Lemma decPrefix_digits d : decPrefix (digits d) = d.
Proof. induction d; simpl; rewrite ?IHd; reflexivity. Qed.

Lemma parseInt_digits d :
  d <> Decimal.Nil -> parseInt (digits d) = Some (Z.of_uint d).
Proof.
  intros Hd. unfold parseInt.
  rewrite trimStart_digits, stripSign_digits, stripHexPrefix_digits, decPrefix_digits.
  destruct d; try reflexivity. contradiction.
Qed.

Lemma parseInt_minus_digits d :
  d <> Decimal.Nil -> parseInt (String "-" (digits d)) = Some (- Z.of_uint d).
Proof.
  intros Hd. unfold parseInt.
  cbv beta iota delta [trimStart isWhiteSpace stripSign]. simpl.
  rewrite stripHexPrefix_digits, decPrefix_digits.
  destruct d; try reflexivity. contradiction.
Qed.

Lemma of_uint_to_uint p : Z.of_uint (Pos.to_uint p) = Z.pos p.
Proof. unfold Z.of_uint. rewrite DecimalPos.Unsigned.of_to. reflexivity. Qed.

Lemma string_of_to_uint p :
  DecimalString.NilZero.string_of_uint (Pos.to_uint p) = digits (Pos.to_uint p).
Proof.
  pose proof (DecimalPos.Unsigned.to_uint_nonnil p) as H.
  destruct (Pos.to_uint p); try reflexivity. contradiction.
Qed.

(** [parseInt(String(z)) = z] for every integer. *)
Lemma parseInt_toString z : parseInt (toString z) = Some z.
Proof.
  unfold toString. destruct z as [|p|p]; [reflexivity| |]; simpl.
  - rewrite string_of_to_uint, parseInt_digits, of_uint_to_uint;
      [reflexivity | apply DecimalPos.Unsigned.to_uint_nonnil].
  - rewrite string_of_to_uint, parseInt_minus_digits, of_uint_to_uint;
      [reflexivity | apply DecimalPos.Unsigned.to_uint_nonnil].
Qed.

Lemma stripPrefix_app p s : stripPrefix p (p ++ s) = Some s.
Proof.
  induction p as [|a p IH]; simpl; [reflexivity|].
  rewrite Ascii.eqb_refl. exact IH.
Qed.

Lemma stripPrefix_inv p s rest : stripPrefix p s = Some rest -> s = p ++ rest.
Proof.
  revert s. induction p as [|a p IH]; intros s; simpl.
  - intros [= ->]. reflexivity.
  - destruct s as [|b s]; [discriminate|].
    destruct (Ascii.eqb_spec a b) as [->|]; [|discriminate].
    intros H. rewrite (IH _ H). reflexivity.
Qed.

Lemma replace_prefix p s : replace p "" (p ++ s) = s.
Proof.
  destruct p as [|a p]; destruct s as [|b s]; simpl;
    rewrite ?Ascii.eqb_refl, ?stripPrefix_app; reflexivity.
Qed.

Lemma max_ge n ns : n <= max n ns /\ forall m, In m ns -> m <= max n ns.
Proof.
  unfold max. revert n. induction ns as [|k ns IH]; intros n; simpl.
  - split; [lia | intros m []].
  - destruct (IH (Z.max n k)) as [H1 H2]. split; [lia|].
    intros m [<-|Hm]; [lia | auto].
Qed.

End JSFacts.


(** ** The table: names, lookup, update, delete *)

Local Open Scope list_scope.

Section TableFacts.

Lemma named_true name r : named name r = true <-> checkout r = name.
Proof. apply String.eqb_eq. Qed.

Lemma named_false name r : named name r = false <-> checkout r <> name.
Proof. apply String.eqb_neq. Qed.

Lemma selectByCheckout_Some name t r :
  selectByCheckout name t = Some r -> In r t /\ checkout r = name.
Proof.
  intros H. apply find_some in H as [Hin Hn]. now apply named_true in Hn.
Qed.

Lemma selectByCheckout_None name t :
  selectByCheckout name t = None <-> ~ In name (names t).
Proof.
  unfold selectByCheckout, names. split.
  - intros H Hin. apply in_map_iff in Hin as (r & Hr & Hin).
    apply (find_none _ _ H) in Hin. apply named_false in Hin. contradiction.
  - intros H. destruct (find (named name) t) as [r|] eqn:Hf; [|reflexivity].
    apply find_some in Hf as [Hin Hn]. apply named_true in Hn.
    exfalso. apply H. apply in_map_iff. eauto.
Qed.

Lemma selectByCheckout_unique name t r :
  primaryKey t -> In r t -> checkout r = name -> selectByCheckout name t = Some r.
Proof.
  unfold primaryKey, selectByCheckout, names.
  induction t as [|a t IH]; simpl; intros Hnd Hin Hname; [contradiction|].
  inversion Hnd as [|? ? Hnotin Hnd']; subst.
  destruct Hin as [->|Hin].
  - unfold named at 1. now rewrite String.eqb_refl.
  - destruct (named (checkout r) a) eqn:Ha.
    + apply named_true in Ha. exfalso. apply Hnotin. rewrite Ha.
      apply in_map_iff. eauto.
    + auto.
Qed.

Lemma selectFree_Some repoKey t r :
  selectFree repoKey t = Some r -> In r t /\ repo r = repoKey /\ status r = "free".
Proof.
  intros H. apply find_some in H as [Hin Hb].
  apply andb_true_iff in Hb as [H1 H2].
  apply String.eqb_eq in H1, H2. auto.
Qed.

Lemma freeCheckout_Some repoKey t name :
  freeCheckout repoKey t = Some name ->
  exists r, selectFree repoKey t = Some r /\ checkout r = name /\ name <> "".
Proof.
  unfold freeCheckout. destruct (selectFree repoKey t) as [r|]; [|discriminate].
  destruct (String.eqb_spec (checkout r) ""); [discriminate|].
  intros [= <-]. eauto.
Qed.

Lemma existsb_named name t : existsb (named name) t = false <-> ~ In name (names t).
Proof.
  rewrite <- selectByCheckout_None. unfold selectByCheckout.
  induction t as [|a t IH]; simpl; [tauto|].
  destruct (named name a); simpl; [split; discriminate | exact IH].
Qed.

Lemma insertRow_fresh r t :
  ~ In (checkout r) (names t) -> insertRow r t = Some (t ++ [r])%list.
Proof. intros H. unfold insertRow. apply existsb_named in H. now rewrite H. Qed.

Lemma names_updateWhere name p ts st t : names (updateWhere name p ts st t) = names t.
Proof.
  unfold names, updateWhere. rewrite map_map. apply map_ext.
  intros r. now destruct (named name r).
Qed.

Lemma length_updateWhere name p ts st t : length (updateWhere name p ts st t) = length t.
Proof. apply length_map. Qed.

Lemma In_updateWhere name p ts st t r' :
  In r' (updateWhere name p ts st t) <->
  exists r, In r t /\
    r' = (if named name r then mkRow (checkout r) (repo r) p ts st else r).
Proof.
  unfold updateWhere. rewrite in_map_iff. split; intros (r & H1 & H2); exists r; auto.
Qed.

Lemma In_deleteWhere name t r :
  In r (deleteWhere name t) <-> In r t /\ checkout r <> name.
Proof.
  unfold deleteWhere. rewrite filter_In, negb_true_iff. now rewrite named_false.
Qed.

Lemma names_deleteWhere name t n :
  In n (names (deleteWhere name t)) <-> In n (names t) /\ n <> name.
Proof.
  unfold names. rewrite !in_map_iff. split.
  - intros (r & <- & Hr). apply In_deleteWhere in Hr as [? ?]. eauto.
  - intros [(r & <- & Hr) Hne]. exists r. split; [reflexivity|].
    apply In_deleteWhere. auto.
Qed.

Lemma deleteWhere_fresh name t : ~ In name (names t) -> deleteWhere name t = t.
Proof.
  unfold deleteWhere, names. induction t as [|a t IH]; simpl; intros H; [reflexivity|].
  destruct (named name a) eqn:Ha; simpl.
  - apply named_true in Ha. tauto.
  - f_equal. apply IH. tauto.
Qed.

Lemma deleteWhere_inserted r t :
  ~ In (checkout r) (names t) -> deleteWhere (checkout r) (t ++ [r]) = t.
Proof.
  intros H. unfold deleteWhere. rewrite filter_app. simpl.
  unfold named at 2. rewrite String.eqb_refl. simpl. rewrite List.app_nil_r.
  now apply deleteWhere_fresh.
Qed.

Lemma primaryKey_deleteWhere name t : primaryKey t -> primaryKey (deleteWhere name t).
Proof.
  unfold primaryKey, deleteWhere, names.
  induction t as [|a t IH]; simpl; intros H; [constructor|].
  inversion H as [|? ? Hnotin Hnd]; subst.
  destruct (named name a); simpl; auto.
  constructor; auto.
  intros Hin. apply Hnotin. apply in_map_iff in Hin as (r & Hr & Hin).
  apply filter_In in Hin as [Hin _]. apply in_map_iff. eauto.
Qed.

Lemma primaryKey_insert r t :
  primaryKey t -> ~ In (checkout r) (names t) -> primaryKey (t ++ [r]).
Proof.
  unfold primaryKey, names. intros Hnd Hnotin. rewrite map_app. simpl.
  apply NoDup_app; [exact Hnd | repeat constructor; auto |].
  intros a Ha [<-|[]]. contradiction.
Qed.

Lemma parseCheckoutNum_checkoutName z : parseCheckoutNum (checkoutName z) = Some z.
Proof.
  unfold parseCheckoutNum, checkoutName.
  rewrite JSFacts.replace_prefix. apply JSFacts.parseInt_toString.
Qed.

Lemma checkoutNums_In t r n :
  In r t -> parseCheckoutNum (checkout r) = Some n -> In n (checkoutNums t).
Proof.
  induction t as [|a t IH]; simpl; [contradiction|].
  intros [->|Hin] Hp.
  - rewrite Hp. now left.
  - destruct (parseCheckoutNum (checkout a)); [right|]; auto.
Qed.

Lemma nextNum_gt t n : In n (checkoutNums t) -> n < nextNum t.
Proof.
  unfold nextNum. destruct (checkoutNums t) as [|k ks]; [contradiction|].
  destruct (JSFacts.max_ge k ks) as [H1 H2].
  intros [<-|H]; [lia | specialize (H2 _ H); lia].
Qed.

(** The name [acquireCheckout] computes for a new row is not in the table:
    the [INSERT] of the new-checkout branch never hits the primary key. *)
Lemma nextNum_fresh t : ~ In (checkoutName (nextNum t)) (names t).
Proof.
  intros H. apply in_map_iff in H as (r & Hr & Hin).
  pose proof (parseCheckoutNum_checkoutName (nextNum t)) as Hp.
  rewrite <- Hr in Hp. apply (checkoutNums_In _ _ _ Hin) in Hp.
  apply nextNum_gt in Hp. lia.
Qed.

End TableFacts.

(** ** What each operation does to the world *)

Section OperationFacts.

Variable E : Env.

Lemma sh_table P cmd w res w' : sh P cmd w = (res, w') -> table w' = table w.
Proof. unfold sh. destruct (succeeds P cmd); intros [= <- <-]; reflexivity. Qed.

Lemma resolveRepo_table P repoArg w res w1 :
  resolveRepo P repoArg w = (res, w1) -> table w1 = table w.
Proof.
  unfold resolveRepo. destruct repoArg as [[|c r]|].
  - intros [= <- <-]. reflexivity.
  - intros [= <- <-]. reflexivity.
  - unfold bind. destruct (sh P GitRemoteGetUrlOrigin w) as [[e|u] w0] eqn:Hsh.
    + intros [= <- <-]. eapply sh_table; eauto.
    + apply sh_table in Hsh.
      destruct (String.eqb (JS.trim (originStdout P)) ""); intros [= <- <-]; exact Hsh.
Qed.

Lemma resolveRepo_explicit P r w :
  r <> ""%string -> resolveRepo P (Some r) w = (inr r, w).
Proof. destruct r; [contradiction | reflexivity]. Qed.

Lemma resolveRepo_nonempty P repoArg w repoKey w1 :
  resolveRepo P repoArg w = (inr repoKey, w1) -> repoKey <> ""%string.
Proof.
  unfold resolveRepo. destruct repoArg as [[|c r]|].
  - discriminate.
  - intros [= <- <-]. discriminate.
  - unfold bind. destruct (sh P GitRemoteGetUrlOrigin w) as [[e|u] w0]; [discriminate|].
    destruct (String.eqb_spec (JS.trim (originStdout P)) ""); [discriminate|].
    intros [= <- <-]. assumption.
Qed.

Lemma checkMaxCheckouts_pass maxc repoKey w :
  underLimit maxc repoKey (table w) = true ->
  checkMaxCheckouts maxc repoKey w = (inr tt, w).
Proof.
  unfold underLimit, checkMaxCheckouts, bind, getTable.
  destruct (limitActive maxc) as [m|]; [|reflexivity].
  intros H. apply Z.ltb_lt in H.
  destruct (Z.leb_spec m (countRepo repoKey (table w))); [lia | reflexivity].
Qed.

Lemma checkMaxCheckouts_fail maxc repoKey w :
  underLimit maxc repoKey (table w) = false ->
  exists m, limitActive maxc = Some m /\
    checkMaxCheckouts maxc repoKey w = (inl (MaximumCheckoutsReached m repoKey), w).
Proof.
  unfold underLimit, checkMaxCheckouts, bind, getTable.
  destruct (limitActive maxc) as [m|]; [|discriminate].
  intros H. apply Z.ltb_ge in H. exists m. split; [reflexivity|].
  destruct (Z.leb_spec m (countRepo repoKey (table w))); [reflexivity | lia].
Qed.

Lemma acquireTransaction_reuse P repoKey w name :
  freeCheckout repoKey (table w) = Some name ->
  acquireTransaction E P repoKey w =
    (inr (name, dirOf E name, false),
     mkWorld (updateWhere name (Some (processPid P)) (Some (nowISO P)) "locked" (table w))
             (shell w)).
Proof.
  intros H. unfold acquireTransaction, transaction, bind, getTable. rewrite H.
  reflexivity.
Qed.

Lemma acquireTransaction_new P repoKey w :
  freeCheckout repoKey (table w) = None ->
  let name := checkoutName (nextNum (table w)) in
  acquireTransaction E P repoKey w =
    (inr (name, dirOf E name, true),
     mkWorld (table w ++ [lockedRow P name repoKey]) (shell w)).
Proof.
  intros H name. unfold acquireTransaction, transaction, bind, getTable. rewrite H.
  fold name. rewrite insertRow_fresh by apply nextNum_fresh.
  reflexivity.
Qed.

Lemma provisioning_table P repoKey dir w res w' :
  provisioning E P repoKey dir w = (res, w') -> table w' = table w.
Proof.
  unfold provisioning, ensureSharedRepo, bind, ret.
  destruct (existsSync P (getSharedRepoDir E repoKey)).
  - destruct (sh P (GitFetchAllPrune _) w) as [[e|u] w0] eqn:H1.
    + intros [= <- <-]. eapply sh_table; eauto.
    + intros H2. apply sh_table in H1, H2. congruence.
  - destruct (sh P (GitCloneBare _ _) w) as [[e|u] w0] eqn:H1.
    + intros [= <- <-]. eapply sh_table; eauto.
    + intros H2. apply sh_table in H1, H2. congruence.
Qed.

Lemma provision_ok P repoKey name dir w w' :
  provisioning E P repoKey dir w = (inr tt, w') ->
  provision E P repoKey name dir w = (inr tt, w').
Proof. intros H. unfold provision, tryCatch. now rewrite H. Qed.

Lemma provision_fail P repoKey name dir w cause w' :
  provisioning E P repoKey dir w = (inl cause, w') ->
  provision E P repoKey name dir w =
    (inl (WorktreeCreationFailed cause),
     mkWorld (deleteWhere name (table w)) (shell w')).
Proof.
  intros H. unfold provision, tryCatch. rewrite H.
  apply provisioning_table in H. unfold bind, getTable, setTable, throw.
  now rewrite H.
Qed.

(** The table after [acquireCheckout], by cases on its result. *)
Lemma acquireCheckout_table P repoArg maxc w res w' :
  acquireCheckout E P repoArg maxc w = (res, w') ->
  match res with
  | inl _ => table w' = table w
  | inr r =>
      directory r = dirOf E (id r) /\
      exists repoKey w1,
        resolveRepo P repoArg w = (inr repoKey, w1) /\
        underLimit maxc repoKey (table w) = true /\
        ((freeCheckout repoKey (table w) = Some (id r) /\
          shell w' = shell w1 /\
          table w' = updateWhere (id r) (Some (processPid P)) (Some (nowISO P))
                                 "locked" (table w))
         \/
         (freeCheckout repoKey (table w) = None /\
          id r = checkoutName (nextNum (table w)) /\
          table w' = table w ++ [lockedRow P (id r) repoKey]))
  end.
Proof.
  unfold acquireCheckout. unfold bind at 1.
  destruct (resolveRepo P repoArg w) as [[e|repoKey] w1] eqn:Hres.
  { intros [= <- <-]. eapply resolveRepo_table; eauto. }
  pose proof (resolveRepo_table _ _ _ _ _ Hres) as Ht1.
  unfold bind at 1.
  destruct (underLimit maxc repoKey (table w1)) eqn:Hlim.
  2:{ destruct (checkMaxCheckouts_fail _ _ _ Hlim) as (m & _ & ->).
      intros [= <- <-]. exact Ht1. }
  rewrite (checkMaxCheckouts_pass _ _ _ Hlim).
  unfold bind at 1.
  destruct (freeCheckout repoKey (table w1)) as [name|] eqn:Hfree.
  - rewrite (acquireTransaction_reuse _ _ _ _ Hfree).
    unfold bind, ret. intros [= <- <-]. simpl.
    split; [reflexivity|]. exists repoKey, w1. rewrite <- Ht1. auto 6.
  - rewrite (acquireTransaction_new _ _ _ Hfree).
    unfold bind at 1.
    set (name := checkoutName (nextNum (table w1))).
    set (w2 := mkWorld _ _).
    destruct (provisioning E P repoKey (dirOf E name) w2) as [[cause|[]] w3] eqn:Hprov.
    + rewrite (provision_fail _ _ _ _ _ _ _ Hprov).
      intros [= <- <-]. simpl. subst w2. simpl.
      unfold name. rewrite <- Ht1.
      apply (deleteWhere_inserted (lockedRow P _ repoKey)). apply nextNum_fresh.
    + rewrite (provision_ok _ _ _ _ _ _ Hprov).
      unfold ret. intros [= <- <-]. simpl.
      split; [reflexivity|]. exists repoKey, w1. rewrite <- Ht1.
      split; [reflexivity|]. split; [assumption|]. right.
      apply provisioning_table in Hprov. rewrite Hprov. auto.
Qed.

End OperationFacts.

(** ** Names of the form [checkout-<n>] *)

Section SlotNames.

Lemma slotNumber_inv name n :
  slotNumber name = Some n ->
  exists d, d <> Decimal.Nil /\ n = Z.of_uint d /\
            name = ("checkout-" ++ DecimalString.NilEmpty.string_of_uint d)%string.
Proof.
  unfold slotNumber.
  destruct (JS.stripPrefix "checkout-" name) as [ds|] eqn:Hp; [|discriminate].
  apply JSFacts.stripPrefix_inv in Hp.
  destruct (DecimalString.NilZero.uint_of_string ds) as [d|] eqn:Hu; [|discriminate].
  intros [= <-]. exists d.
  assert (Hd : d <> Decimal.Nil).
  { intros ->. now apply DecimalString.NilZero.uint_of_string_nonnil in Hu. }
  split; [exact Hd|]. split; [reflexivity|].
  apply DecimalString.NilZero.sus in Hu. rewrite Hp, <- Hu.
  destruct d; try reflexivity. contradiction.
Qed.

(** On a name of that form the code reads the same number. *)
Lemma slotNumber_parse name n :
  slotNumber name = Some n -> parseCheckoutNum name = Some n.
Proof.
  intros H. apply slotNumber_inv in H as (d & Hd & -> & ->).
  unfold parseCheckoutNum. rewrite JSFacts.replace_prefix.
  now apply JSFacts.parseInt_digits.
Qed.

Lemma slotNumber_nonneg name n : slotNumber name = Some n -> 0 <= n.
Proof.
  intros H. apply slotNumber_inv in H as (d & _ & -> & _).
  unfold Z.of_uint. apply N2Z.is_nonneg.
Qed.

Lemma slotNumber_checkoutName z : 0 <= z -> slotNumber (checkoutName z) = Some z.
Proof.
  intros Hz. unfold slotNumber, checkoutName. rewrite JSFacts.stripPrefix_app.
  unfold JS.toString. destruct z as [|p|p]; [reflexivity| |lia].
  simpl. rewrite DecimalString.NilZero.usu by apply DecimalPos.Unsigned.to_uint_nonnil.
  simpl. now rewrite JSFacts.of_uint_to_uint.
Qed.

Lemma isSlotName_nonempty name : isSlotName name = true -> name <> ""%string.
Proof. intros H ->. discriminate. Qed.

Lemma checkoutName_nonempty z : checkoutName z <> ""%string.
Proof. discriminate. Qed.

Lemma allSlotNames_In t r : allSlotNames t = true -> In r t -> isSlotName (checkout r) = true.
Proof. unfold allSlotNames. rewrite forallb_forall. auto. Qed.

Lemma allSlotNames_nums t : allSlotNames t = true -> checkoutNums t = slotNumbers t.
Proof.
  induction t as [|a t IH]; simpl; [reflexivity|].
  intros H. apply andb_true_iff in H as [Ha Ht]. unfold isSlotName in Ha.
  destruct (slotNumber (checkout a)) as [n|] eqn:Hn; [|discriminate].
  rewrite (slotNumber_parse _ _ Hn), (IH Ht). reflexivity.
Qed.

Lemma max_fold_right n ns : JS.max n ns = fold_right Z.max n ns.
Proof.
  unfold JS.max. apply fold_symmetric.
  - intros x y z. apply Z.max_assoc.
  - intros y. apply Z.max_comm.
Qed.

(** On a table of such names the number the code computes is one plus
    the largest stored number, or 1. *)
Lemma nextNum_slotNumbers t :
  allSlotNames t = true -> nextNum t = maxSlotNumberPlusOne t.
Proof.
  intros H. unfold nextNum, maxSlotNumberPlusOne. rewrite (allSlotNames_nums _ H).
  destruct (slotNumbers t); [reflexivity|]. now rewrite max_fold_right.
Qed.

Lemma slotNumbers_nonneg t n : In n (slotNumbers t) -> 0 <= n.
Proof.
  induction t as [|a t IH]; simpl; [contradiction|].
  destruct (slotNumber (checkout a)) as [k|] eqn:Hk; [|exact IH].
  intros [<-|H]; [eapply slotNumber_nonneg; eauto | auto].
Qed.

Lemma nextNum_positive t : allSlotNames t = true -> 1 <= nextNum t.
Proof.
  intros H. unfold nextNum. rewrite (allSlotNames_nums _ H).
  destruct (slotNumbers t) as [|n ns] eqn:Hs; [lia|].
  destruct (JSFacts.max_ge n ns) as [H1 _].
  assert (0 <= n) by (apply (slotNumbers_nonneg t); rewrite Hs; now left). lia.
Qed.

Lemma allSlotNames_insert t P repoKey :
  allSlotNames t = true ->
  allSlotNames (t ++ [lockedRow P (checkoutName (nextNum t)) repoKey]) = true.
Proof.
  intros H. unfold allSlotNames. rewrite forallb_app, andb_true_iff. split; [exact H|].
  simpl. unfold isSlotName.
  rewrite slotNumber_checkoutName; [reflexivity|].
  pose proof (nextNum_positive _ H). lia.
Qed.

Lemma allSlotNames_updateWhere name p ts st t :
  allSlotNames (updateWhere name p ts st t) = allSlotNames t.
Proof.
  unfold allSlotNames, updateWhere. induction t as [|a t IH]; simpl; [reflexivity|].
  rewrite IH. now destruct (named name a).
Qed.

Lemma allSlotNames_deleteWhere name t :
  allSlotNames t = true -> allSlotNames (deleteWhere name t) = true.
Proof.
  unfold allSlotNames, deleteWhere. rewrite !forallb_forall.
  intros H r Hr. apply filter_In in Hr as [Hr _]. auto.
Qed.

End SlotNames.

(** ** More on lookups after an update *)

Section LookupFacts.

Lemma selectByCheckout_updateWhere name p ts st t :
  selectByCheckout name (updateWhere name p ts st t) =
  option_map (fun r => mkRow (checkout r) (repo r) p ts st) (selectByCheckout name t).
Proof.
  unfold selectByCheckout, updateWhere.
  induction t as [|a t IH]; simpl; [reflexivity|].
  destruct (named name a) eqn:Ha; simpl.
  - unfold named in *. simpl. now rewrite Ha.
  - rewrite Ha. exact IH.
Qed.

Lemma selectByCheckout_updateWhere_other name other p ts st t :
  other <> name ->
  selectByCheckout other (updateWhere name p ts st t) = selectByCheckout other t.
Proof.
  intros Hne. unfold selectByCheckout, updateWhere.
  induction t as [|a t IH]; simpl; [reflexivity|].
  destruct (named name a) eqn:Ha.
  - apply named_true in Ha.
    assert (Hb : named other a = false) by (apply named_false; congruence).
    rewrite Hb. unfold named in *. simpl. rewrite Hb. exact IH.
  - destruct (named other a); [reflexivity | exact IH].
Qed.

Lemma selectByCheckout_deleteWhere name t :
  selectByCheckout name (deleteWhere name t) = None.
Proof. apply selectByCheckout_None. rewrite names_deleteWhere. tauto. Qed.

Lemma selectByCheckout_deleteWhere_other name other t :
  other <> name ->
  selectByCheckout other (deleteWhere name t) = selectByCheckout other t.
Proof.
  intros Hne. unfold selectByCheckout, deleteWhere.
  induction t as [|a t IH]; simpl; [reflexivity|].
  destruct (named name a) eqn:Ha; simpl.
  - apply named_true in Ha.
    assert (Hb : named other a = false) by (apply named_false; congruence).
    now rewrite Hb.
  - destruct (named other a); [reflexivity | exact IH].
Qed.

Lemma selectByCheckout_app name t r :
  selectByCheckout name (t ++ [r]) =
  match selectByCheckout name t with
  | Some x => Some x
  | None => if named name r then Some r else None
  end.
Proof.
  unfold selectByCheckout. induction t as [|a t IH]; simpl.
  - now destruct (named name r).
  - destruct (named name a); [reflexivity | exact IH].
Qed.

Lemma updateWhere_twice name p ts st p' ts' st' t :
  updateWhere name p ts st (updateWhere name p' ts' st' t) = updateWhere name p ts st t.
Proof.
  unfold updateWhere. rewrite map_map. apply map_ext. intros r.
  destruct (named name r) eqn:Hr.
  - unfold named in *. simpl. now rewrite Hr.
  - now rewrite Hr.
Qed.

Lemma updateWhere_fresh name p ts st t :
  ~ In name (names t) -> updateWhere name p ts st t = t.
Proof.
  unfold updateWhere, names. induction t as [|a t IH]; simpl; intros H; [reflexivity|].
  destruct (named name a) eqn:Ha.
  - apply named_true in Ha. tauto.
  - f_equal. apply IH. tauto.
Qed.

Lemma primaryKey_unique t r1 r2 :
  primaryKey t -> In r1 t -> In r2 t -> checkout r1 = checkout r2 -> r1 = r2.
Proof.
  intros Hpk H1 H2 Hn.
  pose proof (selectByCheckout_unique _ _ _ Hpk H1 Hn) as E1.
  pose proof (selectByCheckout_unique _ _ _ Hpk H2 eq_refl) as E2.
  congruence.
Qed.

(** Under the primary key, [UPDATE ... WHERE checkout = ?] rewrites the
    one row of that name and nothing else. *)
Lemma updateWhere_split p ts st t row :
  primaryKey t -> In row t ->
  exists pre post,
    t = pre ++ row :: post /\
    updateWhere (checkout row) p ts st t =
      pre ++ mkRow (checkout row) (repo row) p ts st :: post.
Proof.
  intros Hpk Hin. apply in_split in Hin as (pre & post & ->).
  exists pre, post. split; [reflexivity|].
  unfold primaryKey, names in Hpk. rewrite map_app in Hpk. simpl in Hpk.
  pose proof (NoDup_remove_2 _ _ _ Hpk) as Hnot.
  rewrite in_app_iff in Hnot.
  unfold updateWhere. rewrite map_app. simpl.
  unfold named at 2. rewrite String.eqb_refl.
  f_equal; [|f_equal]; apply (updateWhere_fresh _ p ts st); intros H; apply Hnot; auto.
Qed.

Lemma names_listCheckouts w : names (listCheckouts w) = names (table w).
Proof. unfold names, listCheckouts. rewrite map_map. reflexivity. Qed.

Lemma lockedNames_In t n :
  In n (lockedNames t) <-> exists r, In r t /\ checkout r = n /\ status r = "locked"%string.
Proof.
  unfold lockedNames, names. rewrite in_map_iff. split.
  - intros (r & Hn & Hr). apply filter_In in Hr as [Hin Hs].
    apply String.eqb_eq in Hs. eauto.
  - intros (r & Hin & Hn & Hs). exists r. split; [exact Hn|].
    apply filter_In. split; [exact Hin|]. now apply String.eqb_eq.
Qed.

Lemma lockedNames_names t n : In n (lockedNames t) -> In n (names t).
Proof.
  rewrite lockedNames_In. intros (r & Hin & <- & _). apply in_map_iff. eauto.
Qed.

Lemma selectFree_None repoKey t :
  selectFree repoKey t = None <->
  forall r, In r t -> repo r = repoKey -> status r <> "free"%string.
Proof.
  unfold selectFree. split.
  - intros H r Hin Hrepo Hst. apply (find_none _ _ H) in Hin.
    apply andb_false_iff in Hin as [Hf|Hf]; apply String.eqb_neq in Hf; contradiction.
  - intros H. destruct (find _ t) as [r|] eqn:Hf; [|reflexivity].
    apply find_some in Hf as [Hin Hb]. apply andb_true_iff in Hb as [H1 H2].
    apply String.eqb_eq in H1, H2. exfalso. eapply H; eauto.
Qed.

Lemma freeCheckout_of_selectFree repoKey t row :
  selectFree repoKey t = Some row -> checkout row <> ""%string ->
  freeCheckout repoKey t = Some (checkout row).
Proof.
  intros H Hne. unfold freeCheckout. rewrite H.
  now destruct (String.eqb_spec (checkout row) "").
Qed.

Lemma freeCheckout_None_of_selectFree repoKey t :
  selectFree repoKey t = None -> freeCheckout repoKey t = None.
Proof. intros H. unfold freeCheckout. now rewrite H. Qed.

End LookupFacts.

(** ** [acquireCheckout], forwards *)

Section AcquireForward.

Variable E : Env.
Variable P : Process.
Variables (repoArg : option string) (maxc : option Z) (w w1 : World) (repoKey : string).
Hypothesis Hres : resolveRepo P repoArg w = (inr repoKey, w1).

Lemma acquire_over_limit m :
  limitActive maxc = Some m -> m <= countRepo repoKey (table w) ->
  acquireCheckout E P repoArg maxc w = (inl (MaximumCheckoutsReached m repoKey), w1).
Proof.
  intros Hm Hle. pose proof (resolveRepo_table _ _ _ _ _ Hres) as Ht.
  unfold acquireCheckout. unfold bind at 1. rewrite Hres. unfold bind at 1.
  assert (Hlim : underLimit maxc repoKey (table w1) = false).
  { unfold underLimit. rewrite Hm, Ht. apply Z.ltb_ge. exact Hle. }
  destruct (checkMaxCheckouts_fail _ _ _ Hlim) as (m' & Hm' & ->).
  congruence.
Qed.

Lemma acquire_reuse name :
  underLimit maxc repoKey (table w) = true ->
  freeCheckout repoKey (table w) = Some name ->
  acquireCheckout E P repoArg maxc w =
    (inr (mkResult name (dirOf E name)),
     mkWorld (updateWhere name (Some (processPid P)) (Some (nowISO P)) "locked" (table w))
             (shell w1)).
Proof.
  intros Hlim Hfree. pose proof (resolveRepo_table _ _ _ _ _ Hres) as Ht.
  rewrite <- Ht in Hlim, Hfree.
  unfold acquireCheckout. unfold bind at 1. rewrite Hres. unfold bind at 1.
  rewrite (checkMaxCheckouts_pass _ _ _ Hlim). unfold bind at 1.
  rewrite (acquireTransaction_reuse _ _ _ _ _ Hfree). rewrite Ht. reflexivity.
Qed.

Lemma acquire_new_ok w3 :
  underLimit maxc repoKey (table w) = true ->
  freeCheckout repoKey (table w) = None ->
  let name := checkoutName (nextNum (table w)) in
  provisioning E P repoKey (dirOf E name)
    (mkWorld (table w ++ [lockedRow P name repoKey]) (shell w1)) = (inr tt, w3) ->
  acquireCheckout E P repoArg maxc w = (inr (mkResult name (dirOf E name)), w3).
Proof.
  intros Hlim Hfree name Hprov. pose proof (resolveRepo_table _ _ _ _ _ Hres) as Ht.
  rewrite <- Ht in Hlim, Hfree.
  unfold acquireCheckout. unfold bind at 1. rewrite Hres. unfold bind at 1.
  rewrite (checkMaxCheckouts_pass _ _ _ Hlim). unfold bind at 1.
  rewrite (acquireTransaction_new _ _ _ _ Hfree). rewrite Ht. fold name.
  unfold bind at 1. rewrite (provision_ok _ _ _ _ _ _ _ Hprov). reflexivity.
Qed.

Lemma acquire_new_fail cause w3 :
  underLimit maxc repoKey (table w) = true ->
  freeCheckout repoKey (table w) = None ->
  let name := checkoutName (nextNum (table w)) in
  provisioning E P repoKey (dirOf E name)
    (mkWorld (table w ++ [lockedRow P name repoKey]) (shell w1)) = (inl cause, w3) ->
  acquireCheckout E P repoArg maxc w =
    (inl (WorktreeCreationFailed cause), mkWorld (table w) (shell w3)).
Proof.
  intros Hlim Hfree name Hprov. pose proof (resolveRepo_table _ _ _ _ _ Hres) as Ht.
  rewrite <- Ht in Hlim, Hfree.
  unfold acquireCheckout. unfold bind at 1. rewrite Hres. unfold bind at 1.
  rewrite (checkMaxCheckouts_pass _ _ _ Hlim). unfold bind at 1.
  rewrite (acquireTransaction_new _ _ _ _ Hfree). rewrite Ht. fold name.
  unfold bind at 1. rewrite (provision_fail _ _ _ _ _ _ _ _ Hprov).
  pose proof (deleteWhere_inserted (lockedRow P name repoKey) (table w)
                (nextNum_fresh (table w))) as Hd.
  cbn [checkout lockedRow] in Hd. cbn [table]. rewrite Hd. reflexivity.
Qed.

End AcquireForward.

(** ** Release and remove, as equations *)

Section ReleaseRemove.

Lemma releaseCheckout_eq name w :
  name <> ""%string ->
  releaseCheckout name w =
    match selectByCheckout name (table w) with
    | None => (inl (DoesNotExist name), w)
    | Some row =>
        if String.eqb (status row) "locked"
        then (inr tt, mkWorld (updateWhere name None None "free" (table w)) (shell w))
        else (inl (IsNotLocked name), w)
    end.
Proof.
  intros Hne. destruct name as [|c s]; [contradiction|].
  unfold releaseCheckout, bind, getTable, setTable, throw.
  destruct (selectByCheckout (String c s) (table w)) as [row|]; [|reflexivity].
  destruct (String.eqb (status row) "locked"); reflexivity.
Qed.

Lemma releaseCheckout_table name w res w' :
  releaseCheckout name w = (res, w') ->
  table w' = table w \/
  (res = inr tt /\ table w' = updateWhere name None None "free" (table w) /\
   exists row, selectByCheckout name (table w) = Some row /\ status row = "locked"%string).
Proof.
  destruct (String.eqb_spec name "") as [->|Hne].
  - intros [= <- <-]. now left.
  - rewrite (releaseCheckout_eq _ _ Hne).
    destruct (selectByCheckout name (table w)) as [row|] eqn:Hsel.
    + destruct (String.eqb_spec (status row) "locked").
      * intros [= <- <-]. right. eauto.
      * intros [= <- <-]. now left.
    + intros [= <- <-]. now left.
Qed.

Lemma removeCheckout_eq E P name w :
  name <> ""%string ->
  removeCheckout E P name w =
    match selectByCheckout name (table w) with
    | None => (inl (DoesNotExist name), w)
    | Some row =>
        let c1 := GitWorktreeRemoveForce (getSharedRepoDir E (repo row)) (dirOf E name) in
        let c2 := RmRf (dirOf E name) in
        if succeeds P c1
        then (inr tt, mkWorld (deleteWhere name (table w)) (shell w ++ [c1]))
        else if succeeds P c2
             then (inr tt, mkWorld (deleteWhere name (table w)) ((shell w ++ [c1]) ++ [c2]))
             else (inl (ShellError c2), mkWorld (table w) ((shell w ++ [c1]) ++ [c2]))
    end.
Proof.
  intros Hne. destruct name as [|c s]; [contradiction|].
  unfold removeCheckout. unfold bind at 1. unfold getTable at 1.
  destruct (selectByCheckout (String c s) (table w)) as [row|]; [|reflexivity].
  unfold bind, tryCatch, sh, getTable, setTable, dirOf. cbv zeta.
  destruct (succeeds P (GitWorktreeRemoveForce _ _)); [reflexivity|].
  cbn [table shell]. destruct (succeeds P (RmRf _)); reflexivity.
Qed.

Lemma removeCheckout_table E P name w res w' :
  removeCheckout E P name w = (res, w') ->
  table w' = table w \/ (res = inr tt /\ table w' = deleteWhere name (table w)).
Proof.
  destruct name as [|c s].
  - intros [= <- <-]. now left.
  - unfold removeCheckout. unfold bind at 1. unfold getTable at 1.
    destruct (selectByCheckout (String c s) (table w)) as [row|].
    + unfold bind, tryCatch, sh, getTable, setTable. cbv zeta.
      destruct (succeeds P (GitWorktreeRemoveForce _ _)).
      * intros [= <- <-]. right. auto.
      * cbn [table shell]. destruct (succeeds P (RmRf _)); intros [= <- <-]; auto.
    + intros [= <- <-]. now left.
Qed.

End ReleaseRemove.

(** ** The free row after a release *)

Section FreeAgain.

Lemma selectFree_updateWhere_free repoKey t row :
  primaryKey t ->
  selectFree repoKey t = Some row ->
  selectFree repoKey (updateWhere (checkout row) None None "free" t) =
    Some (mkRow (checkout row) (repo row) None None "free").
Proof.
  unfold primaryKey, names, selectFree, updateWhere.
  induction t as [|a t IH]; simpl; [discriminate|].
  intros Hnd. inversion Hnd as [|? ? Hnotin Hnd']; subst.
  destruct (String.eqb (repo a) repoKey && String.eqb (status a) "free")%bool eqn:Ha.
  - intros [= <-]. unfold named. rewrite String.eqb_refl. simpl.
    apply andb_true_iff in Ha as [Ha _]. now rewrite Ha.
  - intros Hf. pose proof (find_some _ _ Hf) as [Hin _].
    assert (Hn : named (checkout row) a = false).
    { apply named_false. intros Heq. apply Hnotin. rewrite Heq.
      apply in_map_iff. eauto. }
    rewrite Hn, Ha. now apply IH.
Qed.

Lemma selectFree_app repoKey t x :
  selectFree repoKey t = None ->
  repo x = repoKey -> status x = "free"%string ->
  selectFree repoKey (t ++ [x]) = Some x.
Proof.
  unfold selectFree. intros Hnone Hr Hs.
  induction t as [|a t IH]; simpl in *.
  - rewrite Hr, Hs, String.eqb_refl. reflexivity.
  - destruct (String.eqb (repo a) repoKey && String.eqb (status a) "free")%bool;
      [discriminate | auto].
Qed.

Lemma freeCheckout_None_inv repoKey t :
  ~ In ""%string (names t) -> freeCheckout repoKey t = None -> selectFree repoKey t = None.
Proof.
  unfold freeCheckout. intros Hne.
  destruct (selectFree repoKey t) as [row|] eqn:Hsel; [|reflexivity].
  destruct (String.eqb_spec (checkout row) ""); [|discriminate].
  intros _. exfalso. apply Hne. apply selectFree_Some in Hsel as [Hin _].
  apply in_map_iff. eauto.
Qed.

(** After a successful acquire for [repoKey] and the release of what it
    returned, the first free row of [repoKey] is that same checkout. *)
Lemma free_again E P repoArg maxc w repoKey w1 r wa :
  primaryKey (table w) -> ~ In ""%string (names (table w)) ->
  resolveRepo P repoArg w = (inr repoKey, w1) ->
  acquireCheckout E P repoArg maxc w = (inr r, wa) ->
  r = mkResult (id r) (dirOf E (id r)) /\
  releaseCheckout (id r) wa =
    (inr tt, mkWorld (updateWhere (id r) None None "free" (table wa)) (shell wa)) /\
  length (table wa) = length (updateWhere (id r) None None "free" (table wa)) /\
  freeCheckout repoKey (updateWhere (id r) None None "free" (table wa)) = Some (id r).
Proof.
  intros Hpk Hne Hres Hacq.
  apply acquireCheckout_table in Hacq as (Hdir & repoKey' & w1' & Hres' & _ & Hcases).
  rewrite Hres in Hres'. injection Hres' as <- <-.
  split; [destruct r; simpl in *; congruence|].
  rewrite length_updateWhere.
  destruct Hcases as [(Hfree & _ & Ht) | (Hfree & Hid & Ht)].
  - apply freeCheckout_Some in Hfree as (row0 & Hsel & Hname & Hnonempty).
    pose proof (selectFree_Some _ _ _ Hsel) as (Hin & Hrepo & Hst).
    pose proof (selectByCheckout_unique _ _ _ Hpk Hin Hname) as Hlook.
    split; [|split; [reflexivity|]].
    + rewrite (releaseCheckout_eq _ _ Hnonempty).
      rewrite Ht, selectByCheckout_updateWhere, Hlook. reflexivity.
    + rewrite Ht, updateWhere_twice, <- Hname.
      unfold freeCheckout.
      rewrite (selectFree_updateWhere_free _ _ _ Hpk Hsel). cbn [checkout].
      destruct (String.eqb_spec (checkout row0) ""); [congruence | reflexivity].
  - assert (Hfresh : ~ In (id r) (names (table w))) by (rewrite Hid; apply nextNum_fresh).
    assert (Hnonempty : id r <> ""%string) by (rewrite Hid; apply checkoutName_nonempty).
    assert (Hupd : updateWhere (id r) None None "free" (table wa) =
                   table w ++ [mkRow (id r) repoKey None None "free"]).
    { rewrite Ht. unfold updateWhere at 1. rewrite map_app.
      fold (updateWhere (id r) None None "free" (table w)).
      rewrite (updateWhere_fresh _ _ _ _ _ Hfresh). simpl.
      unfold named. cbn [checkout lockedRow repo]. now rewrite String.eqb_refl. }
    split; [|split; [reflexivity|]].
    + rewrite (releaseCheckout_eq _ _ Hnonempty).
      rewrite Ht, selectByCheckout_app.
      apply selectByCheckout_None in Hfresh. rewrite Hfresh.
      unfold named. cbn [checkout lockedRow status]. rewrite String.eqb_refl.
      reflexivity.
    + rewrite Hupd. unfold freeCheckout.
      rewrite (selectFree_app repoKey (table w) (mkRow (id r) repoKey None None "free"));
        [| now apply freeCheckout_None_inv | reflexivity | reflexivity].
      cbn [checkout]. destruct (String.eqb_spec (id r) ""); [congruence | reflexivity].
Qed.

End FreeAgain.

(** ** Every operation is a table step *)

Section TableSteps.

Variable E : Env.

Lemma step_tableStep op w : tableStep (table w) (table (snd (step E op w))).
Proof.
  destruct op as [P repoArg maxc | name | P name]; simpl.
  - destruct (acquireCheckout E P repoArg maxc w) as [[e|r] w'] eqn:Hacq;
      apply acquireCheckout_table in Hacq; simpl.
    + rewrite Hacq. constructor.
    + destruct Hacq as (_ & repoKey & w1 & _ & _ & [(_ & _ & ->) | (_ & Hid & ->)]).
      * constructor.
      * rewrite Hid. apply ts_insert.
  - destruct (releaseCheckout name w) as [[e|u] w'] eqn:Hrel;
      apply releaseCheckout_table in Hrel as [Ht | (_ & Ht & _)]; simpl;
      rewrite Ht; constructor.
  - destruct (removeCheckout E P name w) as [[e|u] w'] eqn:Hrem;
      apply removeCheckout_table in Hrem as [Ht | (_ & Ht)]; simpl;
      rewrite Ht; constructor.
Qed.

Lemma tableStep_primaryKey t t' : tableStep t t' -> primaryKey t -> primaryKey t'.
Proof.
  intros [] Hpk.
  - exact Hpk.
  - unfold primaryKey. now rewrite names_updateWhere.
  - apply primaryKey_insert; [exact Hpk | apply nextNum_fresh].
  - unfold primaryKey. now rewrite names_updateWhere.
  - now apply primaryKey_deleteWhere.
Qed.

Lemma tableStep_allSlotNames t t' :
  tableStep t t' -> allSlotNames t = true -> allSlotNames t' = true.
Proof.
  intros [] H.
  - exact H.
  - now rewrite allSlotNames_updateWhere.
  - apply (allSlotNames_insert t (mkProcess p ts "" (fun _ => false) (fun _ => false))).
    exact H.
  - now rewrite allSlotNames_updateWhere.
  - now apply allSlotNames_deleteWhere.
Qed.

Lemma tableStep_wellFormed t t' :
  tableStep t t' -> Forall rowWellFormed t -> Forall rowWellFormed t'.
Proof.
  assert (Hlocked : forall n k p ts, rowWellFormed (mkRow n k (Some p) (Some ts) "locked")).
  { intros. split; simpl; [split|]; discriminate. }
  assert (Hfree : forall n k, rowWellFormed (mkRow n k None None "free")).
  { intros. split; simpl; [discriminate | auto]. }
  intros [] H.
  - exact H.
  - unfold updateWhere. apply Forall_map. eapply Forall_impl; [|exact H].
    intros r Hr. cbv beta. destruct (named name r); [apply Hlocked || apply Hfree | exact Hr].
  - apply Forall_app. split; [exact H | constructor; [apply Hlocked | constructor]].
  - unfold updateWhere. apply Forall_map. eapply Forall_impl; [|exact H].
    intros r Hr. cbv beta. destruct (named name r); [apply Hlocked || apply Hfree | exact Hr].
  - unfold deleteWhere. rewrite Forall_forall in *. intros r Hr.
    apply filter_In in Hr as [Hr _]. auto.
Qed.

Lemma tableStep_repo t t' name r r' :
  tableStep t t' ->
  selectByCheckout name t = Some r -> selectByCheckout name t' = Some r' ->
  repo r' = repo r.
Proof.
  assert (Hupd : forall n p ts st,
    selectByCheckout name t = Some r ->
    selectByCheckout name (updateWhere n p ts st t) = Some r' -> repo r' = repo r).
  { intros n p ts st Hr Hr'. destruct (String.eqb_spec name n) as [->|Hne].
    - rewrite selectByCheckout_updateWhere, Hr in Hr'. simpl in Hr'.
      injection Hr' as <-. reflexivity.
    - rewrite selectByCheckout_updateWhere_other in Hr' by assumption. congruence. }
  intros [] Hr Hr'.
  - congruence.
  - eauto.
  - rewrite selectByCheckout_app, Hr in Hr'. congruence.
  - eauto.
  - destruct (String.eqb_spec name name0) as [->|Hne].
    + rewrite selectByCheckout_deleteWhere in Hr'. discriminate.
    + rewrite selectByCheckout_deleteWhere_other in Hr' by assumption. congruence.
Qed.

End TableSteps.

(** ** Locked names and held names *)

Section LockedAndHeld.

Lemma removeName_In n m l : In n (removeName m l) <-> In n l /\ n <> m.
Proof.
  unfold removeName. rewrite filter_In, negb_true_iff. now rewrite String.eqb_neq.
Qed.

Lemma lockedNames_lock name p ts t n :
  In n (lockedNames (updateWhere name p ts "locked" t)) <->
  (n = name /\ In name (names t)) \/ In n (lockedNames t).
Proof.
  rewrite !lockedNames_In. split.
  - intros (r' & Hin & Hn & Hs). apply In_updateWhere in Hin as (r & Hin & ->).
    destruct (named name r) eqn:Hnamed.
    + apply named_true in Hnamed. simpl in Hn. left. split; [congruence|].
      apply in_map_iff. eauto.
    + right. eauto.
  - intros [[-> Hin] | (r & Hin & Hn & Hs)].
    + apply in_map_iff in Hin as (r & Hn & Hin).
      exists (mkRow (checkout r) (repo r) p ts "locked"). split; [|auto].
      apply In_updateWhere. exists r. split; [exact Hin|].
      apply named_true in Hn. now rewrite Hn.
    + destruct (named name r) eqn:Hnamed.
      * exists (mkRow (checkout r) (repo r) p ts "locked"). split; [|auto].
        apply In_updateWhere. exists r. now rewrite Hnamed.
      * exists r. split; [|auto]. apply In_updateWhere. exists r. now rewrite Hnamed.
Qed.

Lemma lockedNames_free name p ts t n :
  In n (lockedNames (updateWhere name p ts "free" t)) <->
  In n (lockedNames t) /\ n <> name.
Proof.
  rewrite !lockedNames_In. split.
  - intros (r' & Hin & Hn & Hs). apply In_updateWhere in Hin as (r & Hin & ->).
    destruct (named name r) eqn:Hnamed; [discriminate|].
    apply named_false in Hnamed. split; [eauto | congruence].
  - intros [(r & Hin & Hn & Hs) Hne]. exists r. split; [|auto].
    apply In_updateWhere. exists r. split; [exact Hin|].
    assert (Hnamed : named name r = false) by (apply named_false; congruence).
    now rewrite Hnamed.
Qed.

Lemma lockedNames_insert t r n :
  status r = "locked"%string ->
  In n (lockedNames (t ++ [r])) <-> In n (lockedNames t) \/ n = checkout r.
Proof.
  intros Hs. rewrite !lockedNames_In. split.
  - intros (x & Hin & Hn & Hx). apply in_app_iff in Hin as [Hin | [<- | []]]; eauto.
  - intros [(x & Hin & Hn & Hx) | ->].
    + exists x. rewrite in_app_iff. auto.
    + exists r. rewrite in_app_iff. simpl. auto.
Qed.

Lemma names_app t r : names (t ++ [r]) = names t ++ [checkout r].
Proof. unfold names. now rewrite map_app. Qed.

(** A successful acquire hands out a name that was not locked, and locks it. *)
Lemma acquire_keeps_lockedAreHeld E P repoArg maxc w r w' acc :
  lockedAreHeld (table w) acc ->
  acquireCheckout E P repoArg maxc w = (inr r, w') ->
  ~ In (id r) (lockedNames (table w)) /\ lockedAreHeld (table w') (id r :: acc).
Proof.
  intros (Hpk & Hne & Hiff) Hacq.
  apply acquireCheckout_table in Hacq
    as (_ & repoKey & w1 & _ & _ & [(Hfree & _ & Ht) | (Hfree & Hid & Ht)]).
  - apply freeCheckout_Some in Hfree as (row0 & Hsel & Hname & Hnonempty).
    apply selectFree_Some in Hsel as (Hin & _ & Hst).
    assert (Hnot : ~ In (id r) (lockedNames (table w))).
    { rewrite lockedNames_In. intros (x & Hx & Hxn & Hxs).
      assert (x = row0) by (eapply primaryKey_unique; eauto; congruence).
      subst x. rewrite Hst in Hxs. discriminate. }
    split; [exact Hnot|]. rewrite Ht. unfold lockedAreHeld, primaryKey in *.
    rewrite names_updateWhere. split; [exact Hpk|]. split; [exact Hne|].
    intros n. rewrite lockedNames_lock, Hiff. simpl.
    assert (In (id r) (names (table w))) by (apply in_map_iff; eauto).
    intuition.
  - assert (Hfresh : ~ In (id r) (names (table w))) by (rewrite Hid; apply nextNum_fresh).
    split; [intros H; now apply lockedNames_names in H|].
    rewrite Ht. unfold lockedAreHeld. split; [|split].
    + now apply primaryKey_insert.
    + rewrite names_app, in_app_iff. simpl. intros [H|[H|[]]]; [tauto|].
      rewrite Hid in H. now apply checkoutName_nonempty in H.
    + intros n. rewrite lockedNames_insert by reflexivity. rewrite Hiff. simpl.
      intuition.
Qed.

(** A release call ends the holding of its name, whatever it answers. *)
Lemma release_keeps_lockedAreHeld name w res w' acc :
  lockedAreHeld (table w) acc ->
  releaseCheckout name w = (res, w') ->
  lockedAreHeld (table w') (removeName name acc).
Proof.
  intros (Hpk & Hne & Hiff) Hrel.
  assert (Hsame : ~ In name (lockedNames (table w)) ->
                  lockedAreHeld (table w) (removeName name acc)).
  { intros Hnot. split; [exact Hpk|]. split; [exact Hne|].
    intros n. rewrite removeName_In, <- Hiff. split; [|tauto].
    intros H. split; [exact H|]. intros ->. contradiction. }
  destruct (String.eqb_spec name "") as [->|Hnonempty].
  - injection Hrel as <- <-. apply Hsame. intros H. now apply lockedNames_names in H.
  - rewrite (releaseCheckout_eq _ _ Hnonempty) in Hrel.
    destruct (selectByCheckout name (table w)) as [row|] eqn:Hsel.
    + pose proof (selectByCheckout_Some _ _ _ Hsel) as [Hin Hn].
      destruct (String.eqb_spec (status row) "locked") as [Hs|Hs];
        injection Hrel as <- <-.
      * cbn [table]. unfold lockedAreHeld, primaryKey in *. rewrite names_updateWhere.
        split; [exact Hpk|]. split; [exact Hne|].
        intros n. rewrite lockedNames_free, removeName_In, Hiff. tauto.
      * apply Hsame. rewrite lockedNames_In. intros (x & Hx & Hxn & Hxs).
        assert (x = row) by (eapply primaryKey_unique; eauto; congruence).
        subst x. contradiction.
    + injection Hrel as <- <-. apply Hsame. intros H.
      apply lockedNames_names in H. now apply selectByCheckout_None in Hsel.
Qed.

Lemma step_keeps_lockedAreHeld E op w acc :
  isRemove op = false ->
  lockedAreHeld (table w) acc ->
  lockedAreHeld (table (snd (step E op w))) (heldStep op (fst (step E op w)) acc).
Proof.
  intros Hop Hinv. destruct op as [P repoArg maxc | name | P name]; [| |discriminate]; simpl.
  - destruct (acquireCheckout E P repoArg maxc w) as [[e|r] w'] eqn:Hacq; simpl.
    + apply acquireCheckout_table in Hacq. now rewrite Hacq.
    + now apply (acquire_keeps_lockedAreHeld _ _ _ _ _ _ _ _ Hinv Hacq).
  - destruct (releaseCheckout name w) as [[e|u] w'] eqn:Hrel; simpl;
      eapply release_keeps_lockedAreHeld; eauto.
Qed.

Lemma held_cons op out log acc : held ((op, out) :: log) acc = held log (heldStep op out acc).
Proof. destruct out, op; reflexivity. Qed.

Lemma run_cons E op ops w :
  run E (op :: ops) w =
    ((op, fst (step E op w)) :: fst (run E ops (snd (step E op w))),
     snd (run E ops (snd (step E op w)))).
Proof.
  simpl. destruct (step E op w) as [out w1]. simpl.
  now destruct (run E ops w1).
Qed.

Lemma run_keeps_lockedAreHeld E ops : forall w acc,
  noRemove ops = true ->
  lockedAreHeld (table w) acc ->
  lockedAreHeld (table (snd (run E ops w))) (held (fst (run E ops w)) acc).
Proof.
  induction ops as [|op ops IH]; intros w acc Hops Hinv; [exact Hinv|].
  simpl in Hops. apply andb_true_iff in Hops as [Hop Hops].
  apply negb_true_iff in Hop.
  rewrite run_cons. cbn [fst snd]. rewrite held_cons.
  apply IH; [exact Hops|]. now apply step_keeps_lockedAreHeld.
Qed.

End LockedAndHeld.

(** ** Names along a run *)

Section NamesAlongRuns.

Variable E : Env.

Lemma run_allSlotNames ops : forall w,
  allSlotNames (table w) = true -> allSlotNames (table (snd (run E ops w))) = true.
Proof.
  induction ops as [|op ops IH]; intros w H; [exact H|].
  rewrite run_cons. cbn [snd]. apply IH.
  eapply tableStep_allSlotNames; [apply step_tableStep | exact H].
Qed.

(** Every stored number is below the number of the next new checkout. *)
Lemma stored_below_nextNum t row :
  allSlotNames t = true -> In row t ->
  exists m, slotNumber (checkout row) = Some m /\ m < nextNum t.
Proof.
  intros Hall Hin. pose proof (allSlotNames_In _ _ Hall Hin) as Hs.
  unfold isSlotName in Hs.
  destruct (slotNumber (checkout row)) as [m|] eqn:Hm; [|discriminate].
  exists m. split; [reflexivity|]. apply nextNum_gt.
  eapply checkoutNums_In; [exact Hin | now apply slotNumber_parse].
Qed.

Lemma step_names_mono op w n :
  isRemove op = false ->
  In n (names (table w)) -> In n (names (table (snd (step E op w)))).
Proof.
  intros Hop Hin. destruct op as [P repoArg maxc | name | P name]; [| |discriminate]; simpl.
  - destruct (acquireCheckout E P repoArg maxc w) as [[e|r] w'] eqn:Hacq;
      apply acquireCheckout_table in Hacq; simpl.
    + now rewrite Hacq.
    + destruct Hacq as (_ & repoKey & w1 & _ & _ & [(_ & _ & ->) | (_ & _ & ->)]).
      * now rewrite names_updateWhere.
      * rewrite names_app, in_app_iff. now left.
  - destruct (releaseCheckout name w) as [[e|u] w'] eqn:Hrel;
      apply releaseCheckout_table in Hrel as [Ht | (_ & Ht & _)]; simpl;
      rewrite Ht, ?names_updateWhere; exact Hin.
Qed.

Lemma step_acquired_stored op w r :
  fst (step E op w) = Acquired r -> In (id r) (names (table (snd (step E op w)))).
Proof.
  destruct op as [P repoArg maxc | name | P name]; simpl.
  - destruct (acquireCheckout E P repoArg maxc w) as [[e|r'] w'] eqn:Hacq; simpl;
      [discriminate|].
    intros [= ->]. apply acquireCheckout_table in Hacq
      as (_ & repoKey & w1 & _ & _ & [(Hfree & _ & ->) | (_ & _ & ->)]).
    + rewrite names_updateWhere.
      apply freeCheckout_Some in Hfree as (row0 & Hsel & Hname & _).
      apply selectFree_Some in Hsel as (Hin & _). apply in_map_iff. eauto.
    + rewrite names_app, in_app_iff. right. now left.
  - destruct (releaseCheckout name w) as [[e|u] w']; discriminate.
  - destruct (removeCheckout E P name w) as [[e|u] w']; discriminate.
Qed.

Lemma acquiredNames_cons op out log :
  acquiredNames ((op, out) :: log) =
  match out with Acquired r => id r :: acquiredNames log | _ => acquiredNames log end.
Proof. destruct out; reflexivity. Qed.

Lemma run_acquired_stored ops : forall w name,
  noRemove ops = true ->
  In name (names (table w)) \/ In name (acquiredNames (fst (run E ops w))) ->
  In name (names (table (snd (run E ops w)))).
Proof.
  induction ops as [|op ops IH]; intros w name Hops H.
  - destruct H as [H|[]]. exact H.
  - simpl in Hops. apply andb_true_iff in Hops as [Hop Hops].
    apply negb_true_iff in Hop.
    rewrite run_cons in *. cbn [fst snd] in *. rewrite acquiredNames_cons in H.
    apply IH; [exact Hops|].
    destruct H as [H|H]; [left; now apply step_names_mono|].
    destruct (fst (step E op w)) as [r| | |e] eqn:Hout; auto.
    destruct H as [<-|H]; [left; now apply step_acquired_stored | auto].
Qed.

End NamesAlongRuns.

(** ** Tables reached from the empty pool *)

Section Reachable.

Variable E : Env.

Lemma run_rowInvariant ops : forall w,
  rowInvariant (table w) -> rowInvariant (table (snd (run E ops w))).
Proof.
  induction ops as [|op ops IH]; intros w H; [exact H|].
  rewrite run_cons. cbn [snd]. apply IH. destruct H as [Hpk Hwf].
  pose proof (step_tableStep E op w) as Hstep. split.
  - eapply tableStep_primaryKey; eauto.
  - eapply tableStep_wellFormed; eauto.
Qed.

(** Whatever was called on the empty pool, the names of the table are
    unique and of the form [checkout-<n>], and its rows are well formed:
    the assumptions made on the table in the statements below hold of
    every table the operations produce. *)
Lemma reachable_table ops :
  let t := table (snd (run E ops emptyPool)) in
  rowInvariant t /\ allSlotNames t = true /\ ~ In ""%string (names t).
Proof.
  cbv zeta. split; [|split].
  - apply run_rowInvariant. split; constructor.
  - now apply run_allSlotNames.
  - intros H. apply in_map_iff in H as (r & Hr & Hin).
    assert (Hall : allSlotNames (table (snd (run E ops emptyPool))) = true)
      by now apply run_allSlotNames.
    pose proof (allSlotNames_In _ _ Hall Hin) as Hs. rewrite Hr in Hs. discriminate.
Qed.

End Reachable.

(** ** Counting the rows of a repository *)

Section Counting.

Lemma countRepo_updateWhere k name p ts st t :
  countRepo k (updateWhere name p ts st t) = countRepo k t.
Proof.
  unfold countRepo, updateWhere. f_equal.
  induction t as [|a t IH]; simpl; [reflexivity|].
  assert (Hrepo : repo (if named name a then mkRow (checkout a) (repo a) p ts st else a)
                  = repo a) by now destruct (named name a).
  rewrite Hrepo. destruct (String.eqb (repo a) k); simpl; now rewrite IH.
Qed.

Lemma countRepo_app k t r :
  countRepo k (t ++ [r]) = countRepo k t + (if String.eqb (repo r) k then 1 else 0).
Proof.
  unfold countRepo. rewrite filter_app, length_app. simpl.
  destruct (String.eqb (repo r) k); simpl; lia.
Qed.

Lemma countRepo_deleteWhere k name t :
  countRepo k (deleteWhere name t) <= countRepo k t.
Proof.
  unfold countRepo, deleteWhere. apply inj_le.
  induction t as [|a t IH]; simpl; [lia|].
  destruct (named name a); simpl; destruct (String.eqb (repo a) k); simpl; lia.
Qed.

Lemma underLimit_lt k repoKey t :
  underLimit (Some k) repoKey t = true -> 0 < k -> countRepo repoKey t < k.
Proof.
  unfold underLimit, limitActive. intros H Hk.
  apply Z.ltb_lt in Hk. rewrite Hk in H. now apply Z.ltb_lt.
Qed.

Lemma step_keeps_count E m op w :
  limitedBy m [op] = true ->
  (forall k, countRepo k (table w) <= m) ->
  forall k, countRepo k (table (snd (step E op w))) <= m.
Proof.
  intros Hop Hall k. simpl in Hop. rewrite andb_true_r in Hop.
  destruct op as [P repoArg maxc | name | P name]; simpl.
  - destruct maxc as [lim|]; [|discriminate].
    apply andb_true_iff in Hop as [Hpos Hle].
    apply Z.ltb_lt in Hpos. apply Z.leb_le in Hle.
    destruct (acquireCheckout E P repoArg (Some lim) w) as [[e|r] w'] eqn:Hacq;
      apply acquireCheckout_table in Hacq; simpl.
    + rewrite Hacq. apply Hall.
    + destruct Hacq as (_ & repoKey & w1 & _ & Hlim & [(_ & _ & ->) | (_ & _ & ->)]).
      * rewrite countRepo_updateWhere. apply Hall.
      * rewrite countRepo_app. cbn [repo lockedRow].
        destruct (String.eqb_spec repoKey k) as [->|_].
        -- pose proof (underLimit_lt _ _ _ Hlim Hpos). lia.
        -- specialize (Hall k). lia.
  - destruct (releaseCheckout name w) as [[e|u] w'] eqn:Hrel;
      apply releaseCheckout_table in Hrel as [Ht | (_ & Ht & _)]; simpl;
      rewrite Ht, ?countRepo_updateWhere; apply Hall.
  - destruct (removeCheckout E P name w) as [[e|u] w'] eqn:Hrem;
      apply removeCheckout_table in Hrem as [Ht | (_ & Ht)]; simpl; rewrite Ht;
      [apply Hall | | apply Hall | ];
      (eapply Z.le_trans; [apply countRepo_deleteWhere | apply Hall]).
Qed.

Lemma run_keeps_count E m ops : forall w,
  limitedBy m ops = true ->
  (forall k, countRepo k (table w) <= m) ->
  forall k, countRepo k (table (snd (run E ops w))) <= m.
Proof.
  induction ops as [|op ops IH]; intros w Hops Hall; [exact Hall|].
  simpl in Hops. apply andb_true_iff in Hops as [Hop Hops].
  rewrite run_cons. cbn [snd]. apply IH; [exact Hops|].
  apply step_keeps_count; [|exact Hall]. simpl. now rewrite Hop.
Qed.

End Counting.

(** ** The commands an operation runs *)

Section Commands.

Variable E : Env.

Lemma sh_shell P cmd w res w' : sh P cmd w = (res, w') -> shell w' = shell w ++ [cmd].
Proof. unfold sh. destruct (succeeds P cmd); intros [= <- <-]; reflexivity. Qed.

Lemma resolveRepo_shell P repoArg w res w1 :
  resolveRepo P repoArg w = (res, w1) ->
  shell w1 = shell w ++ match repoArg with
                        | None => [GitRemoteGetUrlOrigin]
                        | Some _ => []
                        end.
Proof.
  unfold resolveRepo. destruct repoArg as [[|c r]|].
  - intros [= <- <-]. now rewrite List.app_nil_r.
  - intros [= <- <-]. now rewrite List.app_nil_r.
  - unfold bind. destruct (sh P GitRemoteGetUrlOrigin w) as [[e|u] w0] eqn:Hsh;
      apply sh_shell in Hsh.
    + intros [= <- <-]. exact Hsh.
    + destruct (String.eqb (JS.trim (originStdout P)) ""); intros [= <- <-]; exact Hsh.
Qed.

Lemma provisioning_eq P repoKey name w :
  let m := mirrorCommand E P repoKey in
  let add := GitWorktreeAdd (getSharedRepoDir E repoKey) (dirOf E name) in
  provisioning E P repoKey (dirOf E name) w =
    ((if succeeds P m
      then if succeeds P add then inr tt else inl (ShellError add)
      else inl (ShellError m)),
     mkWorld (table w) (shell w ++ provisioningCommands E P repoKey name)).
Proof.
  unfold provisioning, ensureSharedRepo, provisioningCommands, mirrorCommand, bind, ret, sh.
  cbv zeta.
  destruct (existsSync P (getSharedRepoDir E repoKey)).
  - destruct (succeeds P (GitFetchAllPrune _)); cbn [table shell].
    + rewrite <- List.app_assoc. simpl.
      destruct (succeeds P (GitWorktreeAdd _ _)); reflexivity.
    + reflexivity.
  - destruct (succeeds P (GitCloneBare _ _)); cbn [table shell].
    + rewrite <- List.app_assoc. simpl.
      destruct (succeeds P (GitWorktreeAdd _ _)); reflexivity.
    + reflexivity.
Qed.

Lemma acquireCheckout_shell P repoArg maxc w repoKey w1 :
  resolveRepo P repoArg w = (inr repoKey, w1) ->
  shell (snd (acquireCheckout E P repoArg maxc w)) =
    shell w1 ++
    (if underLimit maxc repoKey (table w)
     then match freeCheckout repoKey (table w) with
          | Some _ => []
          | None => provisioningCommands E P repoKey (checkoutName (nextNum (table w)))
          end
     else []).
Proof.
  intros Hres. pose proof (resolveRepo_table _ _ _ _ _ Hres) as Ht.
  destruct (underLimit maxc repoKey (table w)) eqn:Hlim.
  - destruct (freeCheckout repoKey (table w)) as [name|] eqn:Hfree.
    + rewrite (acquire_reuse E P repoArg maxc w w1 repoKey Hres name Hlim Hfree).
      simpl. now rewrite List.app_nil_r.
    + pose proof (provisioning_eq P repoKey (checkoutName (nextNum (table w)))
                    (mkWorld (table w ++ [lockedRow P (checkoutName (nextNum (table w))) repoKey])
                             (shell w1))) as Hp.
      cbv zeta in Hp.
      destruct (succeeds P (mirrorCommand E P repoKey));
        [destruct (succeeds P (GitWorktreeAdd _ _))|].
      * rewrite (acquire_new_ok E P repoArg maxc w w1 repoKey Hres _ Hlim Hfree Hp).
        reflexivity.
      * rewrite (acquire_new_fail E P repoArg maxc w w1 repoKey Hres _ _ Hlim Hfree Hp).
        reflexivity.
      * rewrite (acquire_new_fail E P repoArg maxc w w1 repoKey Hres _ _ Hlim Hfree Hp).
        reflexivity.
  - rewrite <- Ht in Hlim.
    destruct (checkMaxCheckouts_fail _ _ _ Hlim) as (m & _ & Hfail).
    unfold acquireCheckout. unfold bind at 1. rewrite Hres. unfold bind at 1.
    rewrite Hfail. simpl. now rewrite List.app_nil_r.
Qed.

Lemma acquireCheckout_unresolved P repoArg maxc w e w1 :
  resolveRepo P repoArg w = (inl e, w1) ->
  acquireCheckout E P repoArg maxc w = (inl e, w1).
Proof. intros H. unfold acquireCheckout. unfold bind at 1. now rewrite H. Qed.

Lemma listCheckouts_table w : listCheckouts w = table w.
Proof.
  unfold listCheckouts. rewrite <- (map_id (table w)) at 2.
  apply map_ext. now intros [].
Qed.

End Commands.

(** ** Directories touched and rows written along a run *)

Section AlongRuns.

Variable E : Env.

Lemma releaseCheckout_shell name w res w' :
  releaseCheckout name w = (res, w') -> shell w' = shell w.
Proof.
  destruct (String.eqb_spec name "") as [->|Hne].
  - intros [= <- <-]. reflexivity.
  - rewrite (releaseCheckout_eq _ _ Hne).
    destruct (selectByCheckout name (table w)) as [row|];
      [destruct (String.eqb (status row) "locked")|]; intros [= <- <-]; reflexivity.
Qed.

Lemma stored_name_inPool t name :
  allSlotNames t = true -> In name (names t) -> inPool E (dirOf E name).
Proof.
  intros Hall Hin. apply in_map_iff in Hin as (r & <- & Hin).
  exists (checkout r). split; [now apply (allSlotNames_In t) | reflexivity].
Qed.

Lemma new_name_inPool t :
  allSlotNames t = true -> inPool E (dirOf E (checkoutName (nextNum t))).
Proof.
  intros Hall. exists (checkoutName (nextNum t)). split; [|reflexivity].
  unfold isSlotName. rewrite slotNumber_checkoutName; [reflexivity|].
  pose proof (nextNum_positive _ Hall). lia.
Qed.

Lemma sharedDir_intro repoUrl : sharedDir E (getSharedRepoDir E repoUrl).
Proof. now exists repoUrl. Qed.

Lemma mirrorCommand_inPool P repoKey : commandInPool E (mirrorCommand E P repoKey).
Proof.
  unfold mirrorCommand. destruct (existsSync P _); simpl;
    [apply sharedDir_intro | reflexivity].
Qed.

Lemma provisioningCommands_inPool P repoKey t :
  allSlotNames t = true ->
  Forall (commandInPool E) (provisioningCommands E P repoKey (checkoutName (nextNum t))).
Proof.
  intros Hall. unfold provisioningCommands.
  constructor; [apply mirrorCommand_inPool|].
  destruct (succeeds P _); [|constructor].
  constructor; [|constructor]. simpl.
  split; [apply sharedDir_intro | now apply new_name_inPool].
Qed.

Lemma step_commands_inPool op w :
  allSlotNames (table w) = true ->
  exists cmds, shell (snd (step E op w)) = shell w ++ cmds
               /\ Forall (commandInPool E) cmds.
Proof.
  intros Hall. destruct op as [P repoArg maxc | name | P name]; simpl.
  - destruct (resolveRepo P repoArg w) as [[e|repoKey] w1] eqn:Hres.
    + rewrite (acquireCheckout_unresolved E _ _ _ _ _ _ Hres). simpl.
      eexists. split; [eapply resolveRepo_shell; eauto|].
      destruct repoArg; repeat constructor.
    + pose proof (acquireCheckout_shell E P repoArg maxc w repoKey w1 Hres) as Hsh.
      destruct (acquireCheckout E P repoArg maxc w) as [[e|r] w']; simpl in *;
        rewrite Hsh, (resolveRepo_shell _ _ _ _ _ Hres), <- List.app_assoc;
        (eexists; split; [reflexivity|]);
        (apply Forall_app; split; [destruct repoArg; repeat constructor|]);
        (destruct (underLimit maxc repoKey (table w)); [|constructor]);
        (destruct (freeCheckout repoKey (table w)); [constructor|]);
        now apply provisioningCommands_inPool.
  - destruct (releaseCheckout name w) as [[e|u] w'] eqn:Hrel; simpl;
      apply releaseCheckout_shell in Hrel; rewrite Hrel;
      (exists []; split; [now rewrite List.app_nil_r | constructor]).
  - destruct (String.eqb_spec name "") as [->|Hne].
    + simpl. exists []. split; [now rewrite List.app_nil_r | constructor].
    + rewrite (removeCheckout_eq E P name w Hne).
      destruct (selectByCheckout name (table w)) as [row|] eqn:Hsel.
      * assert (Hin : inPool E (dirOf E name)).
        { apply (stored_name_inPool (table w)); [exact Hall|].
          apply selectByCheckout_Some in Hsel as [Hin <-]. apply in_map_iff. eauto. }
        assert (Hrm : commandInPool E
                        (GitWorktreeRemoveForce (getSharedRepoDir E (repo row)) (dirOf E name)))
          by (split; [apply sharedDir_intro | exact Hin]).
        cbv zeta.
        destruct (succeeds P (GitWorktreeRemoveForce _ _));
          [|destruct (succeeds P (RmRf _))]; simpl;
          rewrite <- ?List.app_assoc;
          (eexists; split; [reflexivity|]);
          repeat (constructor; [first [exact Hrm | exact Hin]|]); constructor.
      * simpl. exists []. split; [now rewrite List.app_nil_r | constructor].
Qed.

(** Stored numbers of at most [MAX_SAFE_INTEGER] keep the next number
    within [2^53], where the code computes it exactly. *)
Lemma fold_right_max_bounds b n ns :
  n <= b -> Forall (fun k => k <= b) ns ->
  n <= fold_right Z.max n ns <= b.
Proof.
  intros Hn H. induction H as [|k ns Hk _ IH]; simpl; lia.
Qed.

Lemma maxSlotNumberPlusOne_exact t :
  safeSlotNumbers t = true -> 1 <= maxSlotNumberPlusOne t <= 2 ^ 53.
Proof.
  unfold safeSlotNumbers, maxSlotNumberPlusOne. intros H.
  pose proof (slotNumbers_nonneg t) as Hpos.
  destruct (slotNumbers t) as [|n ns]; [split; [lia | discriminate]|].
  simpl in H. apply andb_true_iff in H as [Hn Hns].
  apply Z.leb_le in Hn. rewrite forallb_forall in Hns.
  assert (Hall : Forall (fun k => k <= MAX_SAFE_INTEGER) ns).
  { apply Forall_forall. intros k Hk. apply Z.leb_le. now apply Hns. }
  pose proof (fold_right_max_bounds _ _ _ Hn Hall) as Hb.
  assert (0 <= n) by (apply Hpos; now left).
  unfold MAX_SAFE_INTEGER in Hb. lia.
Qed.

Lemma nextNum_exact t :
  allSlotNames t = true -> safeSlotNumbers t = true -> exactNumber (nextNum t).
Proof.
  intros Hall Hsafe. rewrite (nextNum_slotNumbers _ Hall).
  pose proof (maxSlotNumberPlusOne_exact _ Hsafe). unfold exactNumber. lia.
Qed.

Lemma rowShape_allSlotNames t : Forall rowShape t -> allSlotNames t = true.
Proof.
  intros H. unfold allSlotNames. apply forallb_forall. intros r Hin.
  rewrite Forall_forall in H. destruct (H r Hin) as (_ & _ & n & Hn & ->).
  unfold isSlotName. rewrite slotNumber_checkoutName; [reflexivity | lia].
Qed.

Lemma rowShape_updateWhere name p ts st t :
  st = "free"%string \/ st = "locked"%string ->
  Forall rowShape t -> Forall rowShape (updateWhere name p ts st t).
Proof.
  intros Hst H. unfold updateWhere. apply Forall_map.
  eapply Forall_impl; [|exact H]. intros r (Hs & Hr & Hn). cbv beta.
  destruct (named name r); [|now repeat split].
  repeat split; assumption.
Qed.

Lemma step_keeps_rowShape op w :
  Forall rowShape (table w) -> Forall rowShape (table (snd (step E op w))).
Proof.
  intros H. destruct op as [P repoArg maxc | name | P name]; simpl.
  - destruct (acquireCheckout E P repoArg maxc w) as [[e|r] w'] eqn:Hacq;
      apply acquireCheckout_table in Hacq; simpl.
    + now rewrite Hacq.
    + destruct Hacq as (_ & repoKey & w1 & Hres & _ & [(_ & _ & ->) | (_ & Hid & ->)]).
      * apply rowShape_updateWhere; auto.
      * apply Forall_app. split; [exact H|]. constructor; [|constructor].
        repeat split; cbn [status repo checkout lockedRow].
        -- now right.
        -- eapply resolveRepo_nonempty; eauto.
        -- exists (nextNum (table w)). split; [|exact Hid].
           apply nextNum_positive. now apply rowShape_allSlotNames.
  - destruct (releaseCheckout name w) as [[e|u] w'] eqn:Hrel;
      apply releaseCheckout_table in Hrel as [Ht | (_ & Ht & _)]; simpl; rewrite Ht;
      try exact H; apply rowShape_updateWhere; auto.
  - destruct (removeCheckout E P name w) as [[e|u] w'] eqn:Hrem;
      apply removeCheckout_table in Hrem as [Ht | (_ & Ht)]; simpl; rewrite Ht;
      try exact H; unfold deleteWhere; rewrite Forall_forall in *;
      intros r Hr; apply filter_In in Hr as [Hr _]; auto.
Qed.

End AlongRuns.

(** ** Strings: segments and suffixes *)

Section RepoNames.

Local Open Scope string_scope.

Lemma sapp_assoc (a b c : string) : (a ++ b) ++ c = a ++ (b ++ c).
Proof. induction a as [|x a IH]; simpl; [reflexivity | now rewrite IH]. Qed.

Lemma sapp_nil_r (a : string) : a ++ "" = a.
Proof. induction a as [|x a IH]; simpl; [reflexivity | now rewrite IH]. Qed.

Lemma rev_app (a b : string) : JS.rev (a ++ b) = JS.rev b ++ JS.rev a.
Proof.
  induction a as [|x a IH]; simpl; [now rewrite sapp_nil_r|].
  now rewrite IH, sapp_assoc.
Qed.

Lemma rev_involutive (a : string) : JS.rev (JS.rev a) = a.
Proof.
  induction a as [|x a IH]; simpl; [reflexivity|].
  rewrite rev_app, IH. reflexivity.
Qed.

Lemma contains_app c (a b : string) :
  contains c (a ++ b) = (contains c a || contains c b)%bool.
Proof.
  induction a as [|x a IH]; simpl; [reflexivity|].
  now rewrite IH, orb_assoc.
Qed.

Lemma contains_rev c (a : string) : contains c (JS.rev a) = contains c a.
Proof.
  induction a as [|x a IH]; simpl; [reflexivity|].
  rewrite contains_app, IH. simpl. rewrite orb_false_r. apply orb_comm.
Qed.

Lemma splitOn_single sep s : contains sep s = false -> splitOn sep s = [s].
Proof.
  induction s as [|c s IH]; simpl; [reflexivity|].
  intros H. apply orb_false_iff in H as [Hc Hs].
  rewrite Hc, (IH Hs). reflexivity.
Qed.

Lemma splitOn_several sep s :
  contains sep s = true -> exists h1 h2 t, splitOn sep s = h1 :: h2 :: t.
Proof.
  induction s as [|c s IH]; simpl; [discriminate|].
  destruct (Ascii.eqb c sep) eqn:Hc; simpl.
  - intros _. destruct (splitOn sep s) as [|h t] eqn:Hs.
    + destruct s; simpl in Hs; [discriminate|].
      destruct (Ascii.eqb a sep); [discriminate|].
      destruct (splitOn sep s); discriminate.
    + eauto.
  - intros H. destruct (IH H) as (h1 & h2 & t & ->). eauto.
Qed.

Lemma splitOn_segments sep s seg :
  In seg (splitOn sep s) -> contains sep seg = false.
Proof.
  revert seg. induction s as [|c s IH]; simpl; intros seg.
  - intros [<-|[]]. reflexivity.
  - destruct (Ascii.eqb c sep) eqn:Hc.
    + intros [<-|H]; [reflexivity | auto].
    + destruct (splitOn sep s) as [|h t] eqn:Hs.
      * intros [<-|[]]. simpl. now rewrite Hc.
      * intros [<-|H]; [|apply IH; now right].
        simpl. rewrite Hc. simpl. apply IH. now left.
Qed.

Lemma last_In (l : list string) d : l <> [] -> In (last l d) l.
Proof.
  induction l as [|x l IH]; [contradiction|]. intros _.
  destruct l as [|y l]; [now left|]. right. apply IH. discriminate.
Qed.

Lemma splitOn_nonempty sep s : splitOn sep s <> [].
Proof.
  destruct s as [|c s]; simpl; [discriminate|].
  destruct (Ascii.eqb c sep); [discriminate|].
  destruct (splitOn sep s); discriminate.
Qed.

(** The last segment of [a/seg] is [seg]. *)
Lemma last_splitOn sep a seg :
  contains sep seg = false ->
  last (splitOn sep (a ++ String sep seg)) "" = seg.
Proof.
  intros Hseg. induction a as [|c a IH].
  - simpl. rewrite Ascii.eqb_refl, (splitOn_single _ _ Hseg). reflexivity.
  - assert (Hc : contains sep (a ++ String sep seg) = true).
    { rewrite contains_app. simpl. rewrite Ascii.eqb_refl. simpl. apply orb_true_r. }
    destruct (splitOn_several _ _ Hc) as (h1 & h2 & t & Hs).
    change ((String c a) ++ String sep seg) with (String c (a ++ String sep seg)).
    simpl splitOn. rewrite Hs in *.
    destruct (Ascii.eqb c sep); exact IH.
Qed.

Lemma stripGitSuffix_git seg : stripGitSuffix (seg ++ ".git") = seg.
Proof.
  unfold stripGitSuffix. rewrite rev_app. simpl JS.rev.
  rewrite JSFacts.stripPrefix_app. apply rev_involutive.
Qed.

Lemma stripGitSuffix_contains c s :
  contains c (stripGitSuffix s) = true -> contains c s = true.
Proof.
  unfold stripGitSuffix.
  destruct (JS.stripPrefix "tig." (JS.rev s)) as [r|] eqn:Hp; [|auto].
  apply JSFacts.stripPrefix_inv in Hp. rewrite contains_rev. intros Hr.
  rewrite <- (contains_rev c s), Hp, contains_app, Hr. apply orb_true_r.
Qed.

End RepoNames.

(** ** The command line *)

Section CommandLine.

Variables (R : Runtime) (E : Env) (P : Process).

Lemma In_insertByName row rows r :
  In r (insertByName row rows) <-> r = row \/ In r rows.
Proof.
  induction rows as [|r0 rows IH]; simpl.
  - split; [intros [<-|[]]; now left | intros [->|[]]; now left].
  - destruct (String.leb (checkout row) (checkout r0)); simpl.
    + split; [intros [<-|H]; [now left | now right] | intros [->|H]; [now left | now right]].
    + rewrite IH. split.
      * intros [<-|[->|H]]; [right; now left | now left | right; now right].
      * intros [->|[<-|H]]; [right; now left | now left | right; now right].
Qed.

Lemma In_selectCheckoutColumn t r : In r (selectCheckoutColumn t) <-> In r t.
Proof.
  induction t as [|r0 t IH]; simpl; [reflexivity|].
  rewrite In_insertByName, IH. split; intros [H|H]; auto.
Qed.

Lemma names_insertByName_NoDup row rows :
  ~ In (checkout row) (names rows) -> NoDup (names rows) ->
  NoDup (names (insertByName row rows)).
Proof.
  unfold names. induction rows as [|r0 rows IH]; simpl; intros Hnot Hnd.
  - constructor; [intros []|constructor].
  - destruct (String.leb (checkout row) (checkout r0)); simpl.
    + constructor; assumption.
    + inversion Hnd as [|? ? Hr0 Hnd']; subst. constructor.
      * intros Hin. apply in_map_iff in Hin as (r & Hr & Hin).
        apply In_insertByName in Hin as [->|Hin].
        -- apply Hnot. now left.
        -- apply Hr0. apply in_map_iff. eauto.
      * apply IH; [|exact Hnd']. intros Hin. apply Hnot. now right.
Qed.

Lemma names_selectCheckoutColumn_NoDup t :
  NoDup (names t) -> NoDup (names (selectCheckoutColumn t)).
Proof.
  induction t as [|r0 t IH]; intros Hnd; [constructor|].
  inversion Hnd as [|? ? Hr0 Hnd']; subst.
  change (selectCheckoutColumn (r0 :: t)) with (insertByName r0 (selectCheckoutColumn t)).
  apply names_insertByName_NoDup; [|now apply IH].
  intros Hin. apply Hr0. apply in_map_iff in Hin as (r & Hr & Hin).
  apply (proj1 (In_selectCheckoutColumn _ _)) in Hin. apply in_map_iff. eauto.
Qed.

Lemma filterCheckouts_world pattern w : snd (filterCheckouts R pattern w) = w.
Proof.
  unfold filterCheckouts. destruct pattern; [reflexivity|].
  destruct (regExp R _); reflexivity.
Qed.

(** A thrown error leaves the table as it was; so does the unknown
    command, the only case in which the [switch] itself exits. *)
Lemma dispatch_table cmd args w res w' :
  dispatch R E P cmd args w = (res, w') ->
  match res with
  | inl _ => table w' = table w
  | inr (out, ExitCode n) =>
      n = 1 /\ w' = w /\ out = Stdout ("Unknown command: " ++ cmd)%string :: usage
  | inr (_, Returned) => True
  end.
Proof.
  unfold dispatch.
  destruct (oneOf cmd ["list"; "ls"]); [intros [= <- <-]; exact I|].
  destruct (oneOf cmd ["filter"; "-F"; "grep"]).
  { destruct (firstArg args) as [pattern|]; [|intros [= <- <-]; reflexivity].
    unfold cmdFilter. pose proof (filterCheckouts_world pattern w) as Hw.
    destruct (filterCheckouts R pattern w) as [[t|l] w0]; simpl in Hw; subst w0;
      intros [= <- <-]; [reflexivity | exact I]. }
  destruct (oneOf cmd ["acquire"; "a"]).
  { unfold cmdAcquire.
    destruct (acquireCheckout E P (hd_error args) None w) as [[e|r] w0] eqn:Hacq;
      intros [= <- <-]; [|exact I].
    now apply acquireCheckout_table in Hacq. }
  destruct (oneOf cmd ["release"; "r"]).
  { destruct (firstArg args) as [name|]; [|intros [= <- <-]; reflexivity].
    unfold cmdRelease.
    destruct (releaseCheckout name w) as [[e|u] w0] eqn:Hrel;
      intros [= <- <-]; [|exact I].
    apply releaseCheckout_table in Hrel as [Ht | (Hres & _)]; [exact Ht | discriminate]. }
  destruct (oneOf cmd ["remove"; "rm"]).
  { destruct (firstArg args) as [name|]; [|intros [= <- <-]; reflexivity].
    unfold cmdRemove.
    destruct (removeCheckout E P name w) as [[e|u] w0] eqn:Hrem;
      intros [= <- <-]; [|exact I].
    apply removeCheckout_table in Hrem as [Ht | (Hres & _)]; [exact Ht | discriminate]. }
  intros [= <- <-]. auto.
Qed.

End CommandLine.

(** ** Acquire, then release *)

Section AcquireRelease.

Lemma lockedAreHeld_refl t :
  primaryKey t -> ~ In ""%string (names t) -> lockedAreHeld t (lockedNames t).
Proof. intros Hpk Hne. split; [exact Hpk|]. split; [exact Hne|]. tauto. Qed.

(** What was locked before an acquire and the release of what it
    returned is what is locked after. *)
Lemma acquire_release_locked E P repoArg maxc w r w1 res w2 :
  primaryKey (table w) -> ~ In ""%string (names (table w)) ->
  acquireCheckout E P repoArg maxc w = (inr r, w1) ->
  releaseCheckout (id r) w1 = (res, w2) ->
  forall n, In n (lockedNames (table w2)) <-> In n (lockedNames (table w)).
Proof.
  intros Hpk Hne Hacq Hrel n.
  pose proof (lockedAreHeld_refl _ Hpk Hne) as Hinv.
  destruct (acquire_keeps_lockedAreHeld _ _ _ _ _ _ _ _ Hinv Hacq) as [Hnot Hinv1].
  destruct (release_keeps_lockedAreHeld _ _ _ _ _ Hinv1 Hrel) as (_ & _ & Hiff).
  rewrite Hiff, removeName_In. simpl. split.
  - intros [[<-|H] Hn]; [contradiction | exact H].
  - intros H. split; [now right|]. intros ->. contradiction.
Qed.

End AcquireRelease.

(** * The claims *)

Local Open Scope string_scope.
Local Open Scope list_scope.

(** ** C1: locked is held *)

(** C1.  After any sequence of [acquireCheckout] and [releaseCheckout]
    calls on the empty pool (any repositories, any limits, whatever the
    commands answer; no [removeCheckout]), the names whose row is
    ['locked'] are exactly the names returned by an acquire and not named
    by a release call since.  So an acquire that succeeds next, for any
    repository, returns a name that is neither locked nor held. *)
Theorem C1_locked_is_held E ops :
  noRemove ops = true ->
  let log := fst (run E ops emptyPool) in
  let w := snd (run E ops emptyPool) in
  (forall n, In n (lockedNames (table w)) <-> In n (held log []))
  /\ forall P repoArg maxc r w',
       acquireCheckout E P repoArg maxc w = (inr r, w') ->
       ~ In (id r) (lockedNames (table w)) /\ ~ In (id r) (held log []).
Proof.
  intros Hops log w.
  assert (Hinv : lockedAreHeld (table w) (held log [])).
  { apply run_keeps_lockedAreHeld; [exact Hops|].
    split; [constructor|]. split; [simpl; tauto|]. simpl. tauto. }
  split; [apply Hinv|].
  intros P repoArg maxc r w' Hacq.
  destruct (acquire_keeps_lockedAreHeld _ _ _ _ _ _ _ _ Hinv Hacq) as [Hnot _].
  split; [exact Hnot|]. destruct Hinv as (_ & _ & Hiff). now rewrite <- Hiff.
Qed.

Lemma C1_locked_is_held_witness :
  noRemove [OpAcquire exampleProcess (Some "A") None;
            OpAcquire exampleProcess (Some "B") None;
            OpRelease "checkout-1";
            OpAcquire failingProcess (Some "C") None] = true
  /\ (forall n,
        In n (lockedNames (table (snd (run exampleEnv
              [OpAcquire exampleProcess (Some "A") None;
               OpAcquire exampleProcess (Some "B") None;
               OpRelease "checkout-1";
               OpAcquire failingProcess (Some "C") None] emptyPool))))
        <-> In n ["checkout-2"]).
Proof.
  split; [reflexivity|].
  exact (proj1 (C1_locked_is_held exampleEnv
            [OpAcquire exampleProcess (Some "A") None;
             OpAcquire exampleProcess (Some "B") None;
             OpRelease "checkout-1";
             OpAcquire failingProcess (Some "C") None] eq_refl)).
Defined.

(** ** C2: the limit on the checkouts of a repository *)

(** C2.  When a positive [maxCheckouts] is given and the table already
    holds that many rows of the requested repository, or more, free and
    locked rows counted alike, [acquireCheckout] throws
    [MaximumCheckoutsReached] and the table is what it was: no row is
    inserted, updated or deleted. *)
Theorem C2_capacity_exceeded E P repoArg m w repoKey w1 :
  resolveRepo P repoArg w = (inr repoKey, w1) ->
  0 < m ->
  m <= Z.of_nat (length (filter (fun r => String.eqb (repo r) repoKey) (table w))) ->
  acquireCheckout E P repoArg (Some m) w = (inl (MaximumCheckoutsReached m repoKey), w1)
  /\ table w1 = table w.
Proof.
  intros Hres Hpos Hle. split.
  - apply acquire_over_limit; [exact Hres | | exact Hle].
    simpl. apply Z.ltb_lt in Hpos. now rewrite Hpos.
  - eapply resolveRepo_table; eauto.
Qed.

Lemma C2_capacity_exceeded_witness :
  acquireCheckout exampleEnv exampleProcess (Some "A") (Some 1) poolOneFree
    = (inl (MaximumCheckoutsReached 1 "A"), poolOneFree)
  /\ table poolOneFree = table poolOneFree.
Proof.
  apply (C2_capacity_exceeded exampleEnv exampleProcess (Some "A") 1 poolOneFree "A" poolOneFree);
    [reflexivity | lia | simpl; lia].
Defined.

(** ** C3: the name of a new checkout *)

(** C3, as stated, fails when a limit is given and reached: in a table
    with [checkout-1] locked for [A] and no free row of [A],
    [acquireCheckout] for [A] with [maxCheckouts = 1] throws
    [MaximumCheckoutsReached]; it computes no name and inserts no row. *)
Lemma C3_new_checkout_name_counterexample :
  selectFree "A" (table poolTwo) = None
  /\ acquireCheckout exampleEnv exampleProcess (Some "A") (Some 1) poolTwo
       = (inl (MaximumCheckoutsReached 1 "A"), poolTwo).
Proof. split; reflexivity. Qed.

(** C3, amended.  On a table of [checkout-<n>] names whose numbers are at
    most [MAX_SAFE_INTEGER] (so that the largest plus one, at most [2^53],
    is computed exactly by [Math.max(...nums) + 1] and printed in decimal)
    and with no free row of the requested repository, an
    [acquireCheckout] that gets past the limit check (no positive
    [maxCheckouts], or fewer rows of the repository than that) names the
    new checkout [checkout-<n>] with [n] one plus the largest stored
    number (1 on the empty table), and its transaction commits the row of
    that name, bound to the repository and already ['locked'], at the end
    of the table; when the worktree is then provisioned, that name and its
    directory are returned.  Past [2^53] the sum rounds in the code and
    the statement is not made. *)
Theorem C3_new_checkout_name E P repoArg maxc w repoKey w1 :
  allSlotNames (table w) = true ->
  safeSlotNumbers (table w) = true ->
  (forall r, In r (table w) -> repo r = repoKey -> status r <> "free") ->
  resolveRepo P repoArg w = (inr repoKey, w1) ->
  underLimit maxc repoKey (table w) = true ->
  let name := ("checkout-" ++ JS.toString (maxSlotNumberPlusOne (table w)))%string in
  let row := mkRow name repoKey (Some (processPid P)) (Some (nowISO P)) "locked" in
  let committed := mkWorld (table w ++ [row]) (shell w1) in
  acquireTransaction E P repoKey w1 = (inr (name, dirOf E name, true), committed)
  /\ forall w3,
       provisioning E P repoKey (dirOf E name) committed = (inr tt, w3) ->
       acquireCheckout E P repoArg maxc w = (inr (mkResult name (dirOf E name)), w3)
       /\ table w3 = table w ++ [row].
Proof.
  intros Hnames _ Hnofree Hres Hlim name row committed.
  pose proof (resolveRepo_table _ _ _ _ _ Hres) as Ht.
  assert (Hfree : freeCheckout repoKey (table w) = None).
  { apply freeCheckout_None_of_selectFree. now apply selectFree_None. }
  assert (Hname : name = checkoutName (nextNum (table w))).
  { unfold name, checkoutName. now rewrite nextNum_slotNumbers. }
  split.
  - rewrite <- Ht in Hfree.
    rewrite (acquireTransaction_new E P repoKey w1 Hfree). cbv zeta.
    unfold committed, row, lockedRow. now rewrite Ht, <- Hname.
  - intros w3 Hprov. split.
    + pose proof (acquire_new_ok E P repoArg maxc w w1 repoKey Hres w3 Hlim Hfree) as H.
      cbv zeta in H. rewrite <- Hname in H. apply H. exact Hprov.
    + apply provisioning_table in Hprov. exact Hprov.
Qed.

Lemma C3_new_checkout_name_witness :
  acquireCheckout exampleEnv exampleProcess (Some "A") (Some 2) poolTwo
    = (inr (mkResult "checkout-4" "/home/u/.gitproc_pool/checkout-4"),
       mkWorld (table poolTwo ++
                [mkRow "checkout-4" "A" (Some 4242) (Some "2024-01-01T00:00:00.000Z") "locked"])
               [GitCloneBare "A" "/home/u/.gitproc_pool/shared_repos/A";
                GitWorktreeAdd "/home/u/.gitproc_pool/shared_repos/A"
                               "/home/u/.gitproc_pool/checkout-4"]).
Proof.
  refine (proj1 (proj2 (C3_new_checkout_name exampleEnv exampleProcess (Some "A") (Some 2)
                          poolTwo "A" poolTwo eq_refl eq_refl _ eq_refl eq_refl) _ eq_refl)).
  intros r [<-|[<-|[]]]; simpl; discriminate.
Defined.

(** ** C4: reusing a free checkout *)

(** C4, as stated, fails when a limit is given: with [checkout-1] free for
    [A] in the table, [acquireCheckout] for [A] with [maxCheckouts = 1]
    throws [MaximumCheckoutsReached] and leaves the row free; and acquire,
    release, acquire under that limit ends in the same error instead of
    reusing [checkout-1]. *)
Lemma C4_reuse_counterexample :
  selectFree "A" (table poolOneFree) = Some (mkRow "checkout-1" "A" None None "free")
  /\ acquireCheckout exampleEnv exampleProcess (Some "A") (Some 1) poolOneFree
       = (inl (MaximumCheckoutsReached 1 "A"), poolOneFree)
  /\ map snd (fst (run exampleEnv
                     [OpAcquire exampleProcess (Some "A") (Some 1);
                      OpRelease "checkout-1";
                      OpAcquire exampleProcess (Some "A") (Some 1)] emptyPool))
       = [Acquired (mkResult "checkout-1" "/home/u/.gitproc_pool/checkout-1");
          Released;
          Failed (MaximumCheckoutsReached 1 "A")].
Proof. repeat split. Qed.

(** C4, amended.  In a table with unique, non-empty names, for an
    [acquireCheckout] that gets past the limit check (no positive
    [maxCheckouts], or fewer rows of the repository than that):
    if some row of the requested repository is ['free'], one such row is
    rewritten in place to ['locked'] with the caller's [pid] and the time,
    its name and [POOL_DIR/<name>] are returned, no row is added and no
    command is run after the repository was resolved.  And after any
    successful acquire for the repository, the release of the returned
    checkout succeeds, and the next acquire for the same repository that
    gets past the limit check returns the same name and directory, runs
    no command after resolving, and leaves the number of rows as it was. *)
Theorem C4_reuse E P repoArg maxc w repoKey w1 :
  primaryKey (table w) ->
  ~ In "" (names (table w)) ->
  resolveRepo P repoArg w = (inr repoKey, w1) ->
  underLimit maxc repoKey (table w) = true ->
  (forall r0, In r0 (table w) -> repo r0 = repoKey -> status r0 = "free" ->
     exists row pre post,
       table w = pre ++ row :: post
       /\ repo row = repoKey /\ status row = "free"
       /\ acquireCheckout E P repoArg maxc w =
            (inr (mkResult (checkout row) (dirOf E (checkout row))),
             mkWorld (pre ++ lockedRow P (checkout row) repoKey :: post) (shell w1)))
  /\ (forall r wa,
        acquireCheckout E P repoArg maxc w = (inr r, wa) ->
        exists wb,
          releaseCheckout (id r) wa = (inr tt, wb)
          /\ forall P' repoArg' maxc' wb1,
               resolveRepo P' repoArg' wb = (inr repoKey, wb1) ->
               underLimit maxc' repoKey (table wb) = true ->
               exists wc,
                 acquireCheckout E P' repoArg' maxc' wb = (inr r, wc)
                 /\ length (table wc) = length (table wa)
                 /\ shell wc = shell wb1).
Proof.
  intros Hpk Hne Hres Hlim. split.
  - intros r0 Hin0 Hrepo0 Hst0.
    destruct (selectFree repoKey (table w)) as [row|] eqn:Hsel.
    2:{ exfalso. rewrite selectFree_None in Hsel. eapply Hsel; eauto. }
    pose proof (selectFree_Some _ _ _ Hsel) as (Hin & Hrepo & Hst).
    assert (Hnonempty : checkout row <> "").
    { intros Heq. apply Hne. rewrite <- Heq. apply in_map_iff. eauto. }
    destruct (updateWhere_split (Some (processPid P)) (Some (nowISO P)) "locked"
                _ _ Hpk Hin) as (pre & post & Hsplit & Hupd).
    exists row, pre, post. repeat (split; [assumption|]).
    rewrite (acquire_reuse E P repoArg maxc w w1 repoKey Hres (checkout row) Hlim
               (freeCheckout_of_selectFree _ _ _ Hsel Hnonempty)).
    rewrite Hupd. unfold lockedRow. now rewrite Hrepo.
  - intros r wa Hacq.
    destruct (free_again E P repoArg maxc w repoKey w1 r wa Hpk Hne Hres Hacq)
      as (Hr & Hrel & Hlen & Hfree).
    eexists. split; [exact Hrel|].
    intros P' repoArg' maxc' wb1 Hres' Hlim'. cbn [table shell] in *.
    eexists. split.
    + rewrite Hr at 2.
      apply (acquire_reuse E P' repoArg' maxc' _ wb1 repoKey Hres' (id r) Hlim' Hfree).
    + cbn [table shell]. rewrite length_updateWhere. split; [now symmetry | reflexivity].
Qed.

Lemma C4_reuse_witness :
  exists wb,
    releaseCheckout "checkout-1" (snd (acquireCheckout exampleEnv exampleProcess (Some "A") None emptyPool))
      = (inr tt, wb)
    /\ forall P' repoArg' maxc' wb1,
         resolveRepo P' repoArg' wb = (inr "A", wb1) ->
         underLimit maxc' "A" (table wb) = true ->
         exists wc,
           acquireCheckout exampleEnv P' repoArg' maxc' wb
             = (inr (mkResult "checkout-1" "/home/u/.gitproc_pool/checkout-1"), wc)
           /\ length (table wc) = 1%nat
           /\ shell wc = shell wb1.
Proof.
  refine (proj2 (C4_reuse exampleEnv exampleProcess (Some "A") None emptyPool "A" emptyPool
                   _ _ eq_refl eq_refl) _ _ eq_refl).
  - constructor.
  - simpl. tauto.
Defined.

(** ** C5: a new checkout whose worktree cannot be provisioned *)



(** ** C6: release *)

(** C6, as stated, fails on the empty name: no row is named by the empty
    string, yet [releaseCheckout ""] does not throw [DoesNotExist]; the
    schema check of the argument throws first. *)
Lemma C6_release_counterexample :
  selectByCheckout "" (table emptyPool) = None
  /\ releaseCheckout "" emptyPool = (inl (ZodError "Checkout name is required"), emptyPool)
  /\ fst (releaseCheckout "" emptyPool) <> inl (DoesNotExist "").
Proof. repeat split. discriminate. Qed.

(** C6, amended.  For a non-empty name, [releaseCheckout] succeeds exactly
    when the table has a row of that name whose status is ['locked']; it
    then sets that row's status to ['free'] and its [pid] and [timestamp]
    to null, leaving the name and repository of the row and every other
    row alone.  It throws [DoesNotExist] when there is no row of that
    name and [IsNotLocked] when the row's status is not ['locked'] (so
    when it is ['free']); in both cases the world is unchanged. *)
Theorem C6_release name w :
  name <> "" ->
  ((exists w', releaseCheckout name w = (inr tt, w')) <->
   (exists row, selectByCheckout name (table w) = Some row /\ status row = "locked"))
  /\ (forall row, selectByCheckout name (table w) = Some row -> status row = "locked" ->
        exists w', releaseCheckout name w = (inr tt, w')
          /\ shell w' = shell w
          /\ names (table w') = names (table w)
          /\ selectByCheckout name (table w') = Some (mkRow name (repo row) None None "free")
          /\ forall other, other <> name ->
               selectByCheckout other (table w') = selectByCheckout other (table w))
  /\ (selectByCheckout name (table w) = None ->
        releaseCheckout name w = (inl (DoesNotExist name), w))
  /\ (forall row, selectByCheckout name (table w) = Some row -> status row <> "locked" ->
        releaseCheckout name w = (inl (IsNotLocked name), w)).
Proof.
  intros Hne.
  rewrite (releaseCheckout_eq name w Hne).
  destruct (selectByCheckout name (table w)) as [row|] eqn:Hsel.
  - destruct (String.eqb_spec (status row) "locked") as [Hst|Hst].
    + repeat split.
      * intros _. eauto.
      * intros _. eauto.
      * intros row' [= <-] _. eexists. split; [reflexivity|]. cbn [table shell].
        split; [reflexivity|]. split; [apply names_updateWhere|].
        split.
        -- rewrite selectByCheckout_updateWhere, Hsel. simpl.
           apply selectByCheckout_Some in Hsel as [_ ->]. reflexivity.
        -- intros other Ho. now apply selectByCheckout_updateWhere_other.
      * discriminate.
      * intros row' [= <-] Hn. contradiction.
    + repeat split.
      * intros [w' H]. discriminate.
      * intros (row' & [= <-] & H). contradiction.
      * intros row' [= <-] H. contradiction.
      * discriminate.
  - repeat split.
    + intros [w' H]. discriminate.
    + intros (row' & H & _). discriminate.
    + intros row' H. discriminate.
    + intros row' H. discriminate.
Qed.

Lemma C6_release_witness :
  "checkout-1" <> ""
  /\ (exists w', releaseCheckout "checkout-1" poolTwo = (inr tt, w'))
  /\ releaseCheckout "checkout-3" poolTwo = (inl (IsNotLocked "checkout-3"), poolTwo).
Proof.
  split; [discriminate|]. split.
  - apply (proj1 (C6_release "checkout-1" poolTwo ltac:(discriminate))).
    eexists. split; reflexivity.
  - refine (proj2 (proj2 (proj2 (C6_release "checkout-3" poolTwo _))) _ eq_refl _);
      discriminate.
Defined.

(** ** C7: remove *)

(** C7, as stated, fails twice.  With [checkout-1] in the table and both
    [git worktree remove] and the fallback [rm -rf] failing,
    [removeCheckout] throws and the row is still listed.  And on the empty
    name, which names no row, it throws the schema error, not
    [DoesNotExist]. *)
Lemma C7_remove_counterexample :
  (selectByCheckout "checkout-1" (table poolTwo) <> None
   /\ exists w',
        removeCheckout exampleEnv failingProcess "checkout-1" poolTwo
          = (inl (ShellError (RmRf "/home/u/.gitproc_pool/checkout-1")), w')
        /\ In "checkout-1" (names (listCheckouts w')))
  /\ (selectByCheckout "" (table emptyPool) = None
      /\ removeCheckout exampleEnv exampleProcess "" emptyPool
           = (inl (ZodError "Checkout name is required"), emptyPool)).
Proof.
  split; [split; [discriminate|] | split; reflexivity].
  eexists. split; [vm_compute; reflexivity|]. simpl. auto.
Qed.

(** C7, amended.  For a non-empty name: [removeCheckout] throws
    [DoesNotExist] when the table has no row of that name.  When it has
    one, whatever its status, and [git worktree remove] or else the
    fallback [rm -rf] succeeds, [removeCheckout] succeeds and deletes the
    row; when both commands fail it throws the error of [rm -rf] and the
    table is unchanged.  After a successful [removeCheckout] the name is
    not in the output of [listCheckouts]. *)
Theorem C7_remove E P name w :
  name <> "" ->
  (selectByCheckout name (table w) = None ->
     removeCheckout E P name w = (inl (DoesNotExist name), w))
  /\ (forall row, selectByCheckout name (table w) = Some row ->
        let worktreeRemove := GitWorktreeRemoveForce (getSharedRepoDir E (repo row)) (dirOf E name) in
        let rmRf := RmRf (dirOf E name) in
        (succeeds P worktreeRemove || succeeds P rmRf = true ->
           exists w', removeCheckout E P name w = (inr tt, w')
                      /\ table w' = deleteWhere name (table w))
        /\ (succeeds P worktreeRemove || succeeds P rmRf = false ->
              exists w', removeCheckout E P name w = (inl (ShellError rmRf), w')
                         /\ table w' = table w))
  /\ (forall w', removeCheckout E P name w = (inr tt, w') ->
        ~ In name (names (listCheckouts w'))).
Proof.
  intros Hne.
  rewrite (removeCheckout_eq E P name w Hne).
  destruct (selectByCheckout name (table w)) as [row|] eqn:Hsel.
  - cbv zeta. split; [discriminate|]. split.
    + intros row' [= <-].
      destruct (succeeds P (GitWorktreeRemoveForce _ _)); simpl.
      * split; [eauto | discriminate].
      * destruct (succeeds P (RmRf _)); split; try discriminate; eauto.
    + intros w'.
      destruct (succeeds P (GitWorktreeRemoveForce _ _));
        [|destruct (succeeds P (RmRf _))]; intros [= <-];
        rewrite names_listCheckouts; cbn [table];
        rewrite names_deleteWhere; tauto.
  - split; [reflexivity|]. split; [discriminate|]. discriminate.
Qed.

Lemma C7_remove_witness :
  "checkout-1" <> ""
  /\ exists w', removeCheckout exampleEnv exampleProcess "checkout-1" poolTwo = (inr tt, w')
                /\ table w' = deleteWhere "checkout-1" (table poolTwo).
Proof.
  split; [discriminate|].
  exact (proj1 (proj1 (proj2 (C7_remove exampleEnv exampleProcess "checkout-1" poolTwo
                                ltac:(discriminate)))
                      _ eq_refl) eq_refl).
Defined.

(** ** C8: the row invariant *)

(** C8.  Each operation ([acquireCheckout], [releaseCheckout],
    [removeCheckout], with any arguments and whatever its outcome) keeps
    the row invariant: no two rows of one name; a ['locked'] row has [pid]
    and [timestamp] set; a ['free'] row has both null.  And a name that
    has a row before and after the operation has it for the same
    repository. *)
Theorem C8_row_invariant E op w :
  rowInvariant (table w) ->
  rowInvariant (table (snd (step E op w)))
  /\ forall name r r',
       selectByCheckout name (table w) = Some r ->
       selectByCheckout name (table (snd (step E op w))) = Some r' ->
       repo r' = repo r.
Proof.
  intros [Hpk Hwf]. pose proof (step_tableStep E op w) as Hstep. split.
  - split.
    + eapply tableStep_primaryKey; eauto.
    + eapply tableStep_wellFormed; eauto.
  - intros name r r'. now apply tableStep_repo.
Qed.

Lemma C8_row_invariant_witness :
  rowInvariant (table (snd (step exampleEnv (OpAcquire exampleProcess (Some "B") None) poolTwo))).
Proof.
  refine (proj1 (C8_row_invariant exampleEnv (OpAcquire exampleProcess (Some "B") None)
                   poolTwo _)).
  split.
  - repeat constructor; simpl; intuition discriminate.
  - repeat constructor; simpl; intros; try discriminate; auto.
Defined.

(** ** C9: names after a removal *)

(** C9, as stated, fails: acquire, remove the checkout, acquire again
    returns [checkout-1] both times. *)
Lemma C9_name_reuse_counterexample :
  map snd (fst (run exampleEnv
                  [OpAcquire exampleProcess (Some "A") None;
                   OpRemove exampleProcess "checkout-1";
                   OpAcquire exampleProcess (Some "B") None] emptyPool))
  = [Acquired (mkResult "checkout-1" "/home/u/.gitproc_pool/checkout-1");
     Removed;
     Acquired (mkResult "checkout-1" "/home/u/.gitproc_pool/checkout-1")].
Proof. reflexivity. Qed.

(** C9, amended.  The number of a new checkout is one plus the largest
    number in the table at that moment; nothing remembers removed names.
    After any sequence of acquire, release and remove calls on the empty
    pool, a successful acquire returns either the name of a row of the
    table or a name [checkout-<n>] with [n] above the number of every row
    of the table: a name that was removed is returned again only when no
    row with that number or a larger one is left.  In a sequence without
    remove every name handed out is still in the table, so the number of
    a new checkout is above all numbers handed out before. *)
Theorem C9_names_above_stored E ops P repoArg maxc r w' :
  let log := fst (run E ops emptyPool) in
  let w := snd (run E ops emptyPool) in
  acquireCheckout E P repoArg maxc w = (inr r, w') ->
  (In (id r) (names (table w))
   \/ exists n, id r = checkoutName n
        /\ forall row, In row (table w) ->
             exists m, slotNumber (checkout row) = Some m /\ m < n)
  /\ (noRemove ops = true ->
      forall name, In name (acquiredNames log) -> In name (names (table w))).
Proof.
  intros log w Hacq. split.
  - assert (Hall : allSlotNames (table w) = true) by (apply run_allSlotNames; reflexivity).
    apply acquireCheckout_table in Hacq
      as (_ & repoKey & w1 & _ & _ & [(Hfree & _ & _) | (_ & Hid & _)]).
    + left. apply freeCheckout_Some in Hfree as (row0 & Hsel & Hname & _).
      apply selectFree_Some in Hsel as (Hin & _). apply in_map_iff. eauto.
    + right. exists (nextNum (table w)). split; [exact Hid|].
      intros row Hin. now apply stored_below_nextNum.
  - intros Hops name Hin. apply run_acquired_stored; auto.
Qed.

Lemma C9_names_above_stored_witness :
  acquireCheckout exampleEnv exampleProcess (Some "A") None
    (snd (run exampleEnv [OpAcquire exampleProcess (Some "A") None;
                          OpAcquire exampleProcess (Some "B") None;
                          OpRemove exampleProcess "checkout-1"] emptyPool))
  = (inr (mkResult "checkout-3" "/home/u/.gitproc_pool/checkout-3"),
     snd (run exampleEnv [OpAcquire exampleProcess (Some "A") None;
                          OpAcquire exampleProcess (Some "B") None;
                          OpRemove exampleProcess "checkout-1";
                          OpAcquire exampleProcess (Some "A") None] emptyPool))
  /\ (In "checkout-3" ["checkout-2"]
      \/ exists n, "checkout-3" = checkoutName n
           /\ forall row, In row [mkRow "checkout-2" "B" (Some 4242)
                                    (Some "2024-01-01T00:00:00.000Z") "locked"] ->
                exists m, slotNumber (checkout row) = Some m /\ m < n).
Proof.
  split; [reflexivity|].
  exact (proj1 (C9_names_above_stored exampleEnv
                  [OpAcquire exampleProcess (Some "A") None;
                   OpAcquire exampleProcess (Some "B") None;
                   OpRemove exampleProcess "checkout-1"]
                  exampleProcess (Some "A") None _ _ eq_refl)).
Defined.

(** ** C10: what a successful acquire returns *)

(** C10.  A successful [acquireCheckout] for repository [repoKey] returns
    the name of a row that the table now holds as ['locked'] for
    [repoKey], and the directory [POOL_DIR/<name>].  If a row of that name
    was there before, it was a free row of [repoKey]: a checkout of
    another repository is never handed out. *)
Theorem C10_acquire_result E P repoArg maxc w repoKey w1 r w' :
  primaryKey (table w) ->
  resolveRepo P repoArg w = (inr repoKey, w1) ->
  acquireCheckout E P repoArg maxc w = (inr r, w') ->
  directory r = (POOL_DIR E ++ "/" ++ id r)%string
  /\ (exists row, selectByCheckout (id r) (table w') = Some row
                  /\ repo row = repoKey /\ status row = "locked")
  /\ (forall old, selectByCheckout (id r) (table w) = Some old ->
                  repo old = repoKey /\ status old = "free").
Proof.
  intros Hpk Hres Hacq.
  apply acquireCheckout_table in Hacq as (Hdir & repoKey' & w1' & Hres' & _ & Hcases).
  rewrite Hres in Hres'. injection Hres' as <- <-.
  split; [exact Hdir|].
  destruct Hcases as [(Hfree & _ & Ht) | (Hfree & Hid & Ht)].
  - apply freeCheckout_Some in Hfree as (row0 & Hsel & Hname & _).
    apply selectFree_Some in Hsel as (Hin & Hrepo & Hst).
    pose proof (selectByCheckout_unique _ _ _ Hpk Hin Hname) as Hlook.
    split.
    + rewrite Ht, selectByCheckout_updateWhere, Hlook. simpl. eauto.
    + intros old Hold. rewrite Hlook in Hold. injection Hold as <-. auto.
  - assert (Hnone : selectByCheckout (id r) (table w) = None).
    { apply selectByCheckout_None. rewrite Hid. apply nextNum_fresh. }
    split.
    + rewrite Ht, selectByCheckout_app, Hnone.
      unfold named. cbn [checkout lockedRow]. rewrite String.eqb_refl.
      eexists. split; [reflexivity|]. auto.
    + intros old Hold. congruence.
Qed.

Lemma C10_acquire_result_witness :
  directory (mkResult "checkout-3" "/home/u/.gitproc_pool/checkout-3")
    = "/home/u/.gitproc_pool/checkout-3"
  /\ acquireCheckout exampleEnv exampleProcess (Some "B") None poolTwo
     = (inr (mkResult "checkout-3" "/home/u/.gitproc_pool/checkout-3"),
        mkWorld [mkRow "checkout-1" "A" (Some 7) (Some "2023-12-31T00:00:00.000Z") "locked";
                 mkRow "checkout-3" "B" (Some 4242) (Some "2024-01-01T00:00:00.000Z") "locked"] []).
Proof.
  split; [|reflexivity].
  refine (proj1 (C10_acquire_result exampleEnv exampleProcess (Some "B") None poolTwo "B"
                   poolTwo _ _ _ eq_refl eq_refl)).
  repeat constructor; simpl; intuition discriminate.
Defined.

(** ** The end-to-end scenarios of the design document *)

(** Scenario A, run in sequence: two acquires for one repository on the
    empty pool return [checkout-1] and [checkout-2]. *)
Example scenario_A :
  acquiredNames (fst (run exampleEnv
                        [OpAcquire exampleProcess (Some "https://x/repo.git") None;
                         OpAcquire exampleProcess (Some "https://x/repo.git") None]
                        emptyPool))
  = ["checkout-1"; "checkout-2"].
Proof. reflexivity. Qed.

(** Scenario B: acquire, release, acquire reuses [checkout-1]; the mirror
    and the worktree are made once. *)
Example scenario_B :
  let result := run exampleEnv
                  [OpAcquire exampleProcess (Some "https://x/repo.git") None;
                   OpRelease "checkout-1";
                   OpAcquire exampleProcess (Some "https://x/repo.git") None]
                  emptyPool in
  acquiredNames (fst result) = ["checkout-1"; "checkout-1"]
  /\ length (table (snd result)) = 1%nat
  /\ length (shell (snd result)) = 2%nat.
Proof. repeat split. Qed.

(** Scenario C: with [maxCheckouts = 1] the first acquire succeeds and
    the second throws [MaximumCheckoutsReached]. *)
Example scenario_C :
  map snd (fst (run exampleEnv
                  [OpAcquire exampleProcess (Some "https://x/repo.git") (Some 1);
                   OpAcquire exampleProcess (Some "https://x/repo.git") (Some 1)]
                  emptyPool))
  = [Acquired (mkResult "checkout-1" "/home/u/.gitproc_pool/checkout-1");
     Failed (MaximumCheckoutsReached 1 "https://x/repo.git")].
Proof. reflexivity. Qed.

(** * Further properties of the code *)

(** ** The limit of [acquireCheckout] and [acquireForTool] *)

(** A limit of zero or less is no limit: [maxCheckouts && maxCheckouts > 0]
    is false for it, so the call behaves as the call without a limit; so
    does [acquireForTool] with such a [maxParallelism]. *)
Theorem acquire_nonpositive_limit E P repoArg m w :
  m <= 0 ->
  acquireCheckout E P repoArg (Some m) w = acquireCheckout E P repoArg None w
  /\ acquireForTool E P (mkOptions m repoArg) w = acquireCheckout E P repoArg None w.
Proof.
  intros Hm.
  assert (H : acquireCheckout E P repoArg (Some m) w = acquireCheckout E P repoArg None w).
  { unfold acquireCheckout, checkMaxCheckouts, limitActive.
    destruct (Z.ltb_spec 0 m); [lia | reflexivity]. }
  split; [exact H | exact H].
Qed.

Lemma acquire_nonpositive_limit_witness :
  0 <= 0
  /\ acquireCheckout exampleEnv exampleProcess (Some "A") (Some 0) poolOneFree
     = acquireCheckout exampleEnv exampleProcess (Some "A") None poolOneFree.
Proof.
  split; [lia|].
  exact (proj1 (acquire_nonpositive_limit exampleEnv exampleProcess (Some "A") 0
                  poolOneFree ltac:(lia))).
Defined.

(** When every acquire of a sequence run on the empty pool carries a
    positive limit of at most [m], no repository ever has more than [m]
    rows, and so never more than [m] locked checkouts. *)
Theorem limit_bounds_rows E m ops repoKey :
  limitedBy m ops = true ->
  0 <= m ->
  let t := table (snd (run E ops emptyPool)) in
  countRepo repoKey t <= m
  /\ Z.of_nat (length (filter (fun r => String.eqb (repo r) repoKey
                                        && String.eqb (status r) "locked") t)) <= m.
Proof.
  intros Hops Hm t.
  assert (Hcount : countRepo repoKey t <= m).
  { apply run_keeps_count; [exact Hops|]. intros k. simpl. exact Hm. }
  split; [exact Hcount|].
  eapply Z.le_trans; [|exact Hcount]. unfold countRepo. apply inj_le.
  clear. induction t as [|a t IH]; simpl; [lia|].
  destruct (String.eqb (repo a) repoKey); simpl; [|exact IH].
  destruct (String.eqb (status a) "locked"); simpl; lia.
Qed.

Lemma limit_bounds_rows_witness :
  limitedBy 2 [OpAcquire exampleProcess (Some "A") (Some 2);
               OpAcquire exampleProcess (Some "A") (Some 2);
               OpAcquire exampleProcess (Some "A") (Some 2);
               OpRelease "checkout-1";
               OpAcquire exampleProcess (Some "A") (Some 1)] = true
  /\ countRepo "A" (table (snd (run exampleEnv
               [OpAcquire exampleProcess (Some "A") (Some 2);
                OpAcquire exampleProcess (Some "A") (Some 2);
                OpAcquire exampleProcess (Some "A") (Some 2);
                OpRelease "checkout-1";
                OpAcquire exampleProcess (Some "A") (Some 1)] emptyPool))) <= 2.
Proof.
  split; [reflexivity|].
  exact (proj1 (limit_bounds_rows exampleEnv 2
               [OpAcquire exampleProcess (Some "A") (Some 2);
                OpAcquire exampleProcess (Some "A") (Some 2);
                OpAcquire exampleProcess (Some "A") (Some 2);
                OpRelease "checkout-1";
                OpAcquire exampleProcess (Some "A") (Some 1)] "A" eq_refl ltac:(lia))).
Defined.

(** ** Errors *)

(** An operation that throws leaves the table as it was, whichever of
    the three it is and whatever it threw. *)
Theorem failed_operation_keeps_table E op w e :
  fst (step E op w) = Failed e ->
  table (snd (step E op w)) = table w.
Proof.
  destruct op as [P repoArg maxc | name | P name]; simpl.
  - destruct (acquireCheckout E P repoArg maxc w) as [[e'|r] w'] eqn:Hacq; simpl;
      [|discriminate].
    intros _. now apply acquireCheckout_table in Hacq.
  - destruct (releaseCheckout name w) as [[e'|u] w'] eqn:Hrel; simpl; [|discriminate].
    intros _. apply releaseCheckout_table in Hrel as [Ht | (Hres & _)];
      [exact Ht | discriminate].
  - destruct (removeCheckout E P name w) as [[e'|u] w'] eqn:Hrem; simpl; [|discriminate].
    intros _. apply removeCheckout_table in Hrem as [Ht | (Hres & _)];
      [exact Ht | discriminate].
Qed.

Lemma failed_operation_keeps_table_witness :
  fst (step exampleEnv (OpAcquire failingProcess (Some "A") None) poolTwo)
    = Failed (WorktreeCreationFailed
                (ShellError (GitCloneBare "A" "/home/u/.gitproc_pool/shared_repos/A")))
  /\ table (snd (step exampleEnv (OpAcquire failingProcess (Some "A") None) poolTwo))
     = table poolTwo.
Proof.
  split; [reflexivity|].
  exact (failed_operation_keeps_table exampleEnv (OpAcquire failingProcess (Some "A") None)
           poolTwo _ eq_refl).
Defined.

(** On a table of [checkout-<n>] names whose numbers are at most
    [MAX_SAFE_INTEGER], the errors of [acquireCheckout] are: the schema
    error of the argument, the failure of [git remote get-url origin],
    the repository that cannot be inferred, the limit, and the wrapped
    failure of a provisioning command.  The [INSERT] of a new checkout
    does not run into the primary key there.  (With a stored number of
    [2^53] or more the sum [Math.max(...nums) + 1] rounds, the name it
    makes can be a stored one, and the statement is not made.) *)
Theorem acquire_errors E P repoArg maxc w e w' :
  allSlotNames (table w) = true ->
  safeSlotNumbers (table w) = true ->
  acquireCheckout E P repoArg maxc w = (inl e, w') ->
  e = ZodError "Repository URL or name is required"
  \/ e = ShellError GitRemoteGetUrlOrigin
  \/ e = CouldNotInferRepository
  \/ (exists m repoKey, e = MaximumCheckoutsReached m repoKey)
  \/ (exists cmd, e = WorktreeCreationFailed (ShellError cmd)).
Proof.
  intros _ _.
  destruct (resolveRepo P repoArg w) as [[e0|repoKey] w1] eqn:Hres.
  - rewrite (acquireCheckout_unresolved E _ _ _ _ _ _ Hres). intros [= <- <-].
    unfold resolveRepo in Hres. destruct repoArg as [[|c r]|].
    + injection Hres as <- _. auto.
    + discriminate.
    + unfold bind, sh in Hres. destruct (succeeds P GitRemoteGetUrlOrigin).
      * destruct (String.eqb (JS.trim (originStdout P)) ""); [|discriminate].
        injection Hres as <- _. auto.
      * injection Hres as <- _. auto.
  - pose proof (resolveRepo_table _ _ _ _ _ Hres) as Ht.
    destruct (underLimit maxc repoKey (table w)) eqn:Hlim.
    + destruct (freeCheckout repoKey (table w)) as [name|] eqn:Hfree.
      * rewrite (acquire_reuse E P repoArg maxc w w1 repoKey Hres name Hlim Hfree).
        discriminate.
      * pose proof (provisioning_eq E P repoKey (checkoutName (nextNum (table w)))
                      (mkWorld (table w ++ [lockedRow P (checkoutName (nextNum (table w))) repoKey])
                               (shell w1))) as Hp.
        cbv zeta in Hp.
        destruct (succeeds P (mirrorCommand E P repoKey));
          [destruct (succeeds P (GitWorktreeAdd _ _))|].
        -- rewrite (acquire_new_ok E P repoArg maxc w w1 repoKey Hres _ Hlim Hfree Hp).
           discriminate.
        -- rewrite (acquire_new_fail E P repoArg maxc w w1 repoKey Hres _ _ Hlim Hfree Hp).
           intros [= <- _]. right. right. right. right. eauto.
        -- rewrite (acquire_new_fail E P repoArg maxc w w1 repoKey Hres _ _ Hlim Hfree Hp).
           intros [= <- _]. right. right. right. right. eauto.
    + rewrite <- Ht in Hlim. destruct (checkMaxCheckouts_fail _ _ _ Hlim) as (m & Hm & Hfail).
      rewrite Ht in Hlim.
      assert (Hle : m <= countRepo repoKey (table w)).
      { unfold underLimit in Hlim. rewrite Hm in Hlim. now apply Z.ltb_ge. }
      rewrite (acquire_over_limit E P repoArg maxc w w1 repoKey Hres m Hm Hle).
      intros [= <- _]. right. right. right. left. eauto.
Qed.

Lemma acquire_errors_witness :
  acquireCheckout exampleEnv failingProcess None None poolTwo
    = (inl (ShellError GitRemoteGetUrlOrigin),
       mkWorld (table poolTwo) [GitRemoteGetUrlOrigin])
  /\ (ShellError GitRemoteGetUrlOrigin = ZodError "Repository URL or name is required"
      \/ ShellError GitRemoteGetUrlOrigin = ShellError GitRemoteGetUrlOrigin
      \/ ShellError GitRemoteGetUrlOrigin = CouldNotInferRepository
      \/ (exists m repoKey, ShellError GitRemoteGetUrlOrigin = MaximumCheckoutsReached m repoKey)
      \/ (exists cmd, ShellError GitRemoteGetUrlOrigin = WorktreeCreationFailed (ShellError cmd))).
Proof.
  split; [reflexivity|].
  exact (acquire_errors exampleEnv failingProcess None None poolTwo _ _
           eq_refl eq_refl eq_refl).
Defined.

(** ** Commands *)

(** On a table of [checkout-<n>] names whose numbers are at most
    [MAX_SAFE_INTEGER]: after the repository is resolved,
    [acquireCheckout] runs commands only for a new checkout: first the
    mirror command, [git fetch] when the shared directory exists and
    [git clone --bare] when it does not, then [git worktree add] at the
    directory of the new name, and that only when the mirror command
    succeeded.  A call stopped by the limit or reusing a free checkout
    runs none.  (With a stored number of [2^53] or more the code's new
    name is not [checkoutName (nextNum _)], and the statement is not
    made.) *)
Theorem acquire_commands E P repoArg maxc w repoKey w1 :
  allSlotNames (table w) = true ->
  safeSlotNumbers (table w) = true ->
  resolveRepo P repoArg w = (inr repoKey, w1) ->
  let shared := getSharedRepoDir E repoKey in
  let mirror := if existsSync P shared
                then GitFetchAllPrune shared
                else GitCloneBare repoKey shared in
  let add := GitWorktreeAdd shared (dirOf E (checkoutName (nextNum (table w)))) in
  shell (snd (acquireCheckout E P repoArg maxc w)) =
    shell w1 ++
    (if underLimit maxc repoKey (table w)
     then match freeCheckout repoKey (table w) with
          | Some _ => []
          | None => if succeeds P mirror then [mirror; add] else [mirror]
          end
     else []).
Proof.
  intros _ _ Hres shared mirror add.
  rewrite (acquireCheckout_shell E P repoArg maxc w repoKey w1 Hres).
  unfold provisioningCommands, mirrorCommand. fold shared. fold mirror. fold add.
  destruct (underLimit maxc repoKey (table w)); [|reflexivity].
  destruct (freeCheckout repoKey (table w)); [reflexivity|].
  now destruct (succeeds P mirror).
Qed.

Lemma acquire_commands_witness :
  shell (snd (acquireCheckout exampleEnv failingProcess (Some "A") None poolTwo))
  = [GitCloneBare "A" "/home/u/.gitproc_pool/shared_repos/A"].
Proof.
  exact (acquire_commands exampleEnv failingProcess (Some "A") None poolTwo "A" poolTwo
           eq_refl eq_refl eq_refl).
Defined.

(** Whatever is called on the empty pool, every command that is run is
    one of these: [git remote get-url origin]; [git clone --bare] of a
    repository into the shared directory of that repository; [git fetch]
    in the shared directory of a repository; [git worktree add] or
    [git worktree remove], in the shared directory of a repository, of a
    directory [POOL_DIR/checkout-<n>]; [rm -rf] of a directory
    [POOL_DIR/checkout-<n>].  This is about the commands handed to the
    shell; the [mkdirSync] of [ensurePoolDirAndDb] is not one of them. *)
Theorem commands_stay_in_pool E ops :
  Forall (commandInPool E) (shell (snd (run E ops emptyPool))).
Proof.
  assert (Hrun : forall ops' w,
            allSlotNames (table w) = true ->
            Forall (commandInPool E) (shell w) ->
            Forall (commandInPool E) (shell (snd (run E ops' w)))).
  { induction ops' as [|op ops' IH]; intros w Hall Hsh; [exact Hsh|].
    rewrite run_cons. cbn [snd]. apply IH.
    - eapply tableStep_allSlotNames; [apply step_tableStep | exact Hall].
    - destruct (step_commands_inPool E op w Hall) as (cmds & -> & Hc).
      apply Forall_app. auto. }
  apply Hrun; [reflexivity | constructor].
Qed.

(** ** Stale names *)

(** A second [releaseCheckout] of a released checkout throws
    [IsNotLocked] and changes nothing. *)
Theorem release_twice name w w1 :
  releaseCheckout name w = (inr tt, w1) ->
  releaseCheckout name w1 = (inl (IsNotLocked name), w1).
Proof.
  intros Hrel.
  assert (Hne : name <> "") by (intros ->; discriminate).
  pose proof Hrel as Hrel'. rewrite (releaseCheckout_eq _ _ Hne) in Hrel'.
  destruct (selectByCheckout name (table w)) as [row|] eqn:Hsel; [|discriminate].
  destruct (String.eqb (status row) "locked"); [|discriminate].
  injection Hrel' as <-.
  rewrite (releaseCheckout_eq _ _ Hne). cbn [table].
  rewrite selectByCheckout_updateWhere, Hsel. reflexivity.
Qed.

Lemma release_twice_witness :
  releaseCheckout "checkout-1" poolTwo
    = (inr tt, mkWorld (updateWhere "checkout-1" None None "free" (table poolTwo)) [])
  /\ releaseCheckout "checkout-1"
       (mkWorld (updateWhere "checkout-1" None None "free" (table poolTwo)) [])
     = (inl (IsNotLocked "checkout-1"),
        mkWorld (updateWhere "checkout-1" None None "free" (table poolTwo)) []).
Proof.
  split; [reflexivity|].
  exact (release_twice "checkout-1" poolTwo _ eq_refl).
Defined.

(** After a successful [removeCheckout] the name is gone for the other
    operations too: releasing it or removing it again throws
    [DoesNotExist], runs no command and changes nothing. *)
Theorem use_after_remove E P name w w1 :
  removeCheckout E P name w = (inr tt, w1) ->
  releaseCheckout name w1 = (inl (DoesNotExist name), w1)
  /\ forall P', removeCheckout E P' name w1 = (inl (DoesNotExist name), w1).
Proof.
  intros Hrem.
  assert (Hne : name <> "") by (intros ->; discriminate).
  assert (Hgone : selectByCheckout name (table w1) = None).
  { rewrite (removeCheckout_eq _ _ _ _ Hne) in Hrem.
    destruct (selectByCheckout name (table w)) as [row|]; [|discriminate].
    cbv zeta in Hrem.
    destruct (succeeds P (GitWorktreeRemoveForce _ _));
      [|destruct (succeeds P (RmRf _)); [|discriminate]];
      injection Hrem as <-; apply selectByCheckout_deleteWhere. }
  split.
  - rewrite (releaseCheckout_eq _ _ Hne), Hgone. reflexivity.
  - intros P'. rewrite (removeCheckout_eq _ _ _ _ Hne), Hgone. reflexivity.
Qed.

Lemma use_after_remove_witness :
  removeCheckout exampleEnv exampleProcess "checkout-3" poolTwo
    = (inr tt, mkWorld [mkRow "checkout-1" "A" (Some 7) (Some "2023-12-31T00:00:00.000Z") "locked"]
                       [GitWorktreeRemoveForce "/home/u/.gitproc_pool/shared_repos/B"
                                               "/home/u/.gitproc_pool/checkout-3"])
  /\ releaseCheckout "checkout-3"
       (snd (removeCheckout exampleEnv exampleProcess "checkout-3" poolTwo))
     = (inl (DoesNotExist "checkout-3"),
        snd (removeCheckout exampleEnv exampleProcess "checkout-3" poolTwo)).
Proof.
  split; [reflexivity|].
  exact (proj1 (use_after_remove exampleEnv exampleProcess "checkout-3" poolTwo _ eq_refl)).
Defined.

(** ** Listing *)

(** After a successful [acquireCheckout], [listCheckouts] shows the
    returned checkout once, locked for the resolved repository by the
    calling process at the time of the call. *)
Theorem acquire_then_list E P repoArg maxc w repoKey w1 r w' :
  primaryKey (table w) ->
  resolveRepo P repoArg w = (inr repoKey, w1) ->
  acquireCheckout E P repoArg maxc w = (inr r, w') ->
  let mine := mkRow (id r) repoKey (Some (processPid P)) (Some (nowISO P)) "locked" in
  In mine (listCheckouts w')
  /\ forall row, In row (listCheckouts w') -> checkout row = id r -> row = mine.
Proof.
  intros Hpk Hres Hacq mine. rewrite listCheckouts_table.
  assert (Hpk' : primaryKey (table w')).
  { pose proof (step_tableStep E (OpAcquire P repoArg maxc) w) as Hstep.
    simpl in Hstep. rewrite Hacq in Hstep. simpl in Hstep.
    eapply tableStep_primaryKey; eauto. }
  assert (Hin : In mine (table w')).
  { apply acquireCheckout_table in Hacq
      as (_ & repoKey' & w1' & Hres' & _ & [(Hfree & _ & Ht) | (_ & _ & Ht)]);
      rewrite Hres in Hres'; injection Hres' as <- <-; rewrite Ht.
    - apply freeCheckout_Some in Hfree as (row0 & Hsel & Hname & _).
      apply selectFree_Some in Hsel as (Hin0 & Hrepo & _).
      apply In_updateWhere. exists row0. split; [exact Hin0|].
      apply named_true in Hname. rewrite Hname. unfold mine.
      apply named_true in Hname. now rewrite Hname, Hrepo.
    - apply in_app_iff. right. now left. }
  split; [exact Hin|].
  intros row Hrow Hname. eapply primaryKey_unique; eauto.
Qed.

Lemma acquire_then_list_witness :
  In (mkRow "checkout-3" "B" (Some 4242) (Some "2024-01-01T00:00:00.000Z") "locked")
     (listCheckouts (snd (acquireCheckout exampleEnv exampleProcess (Some "B") None poolTwo))).
Proof.
  refine (proj1 (acquire_then_list exampleEnv exampleProcess (Some "B") None poolTwo "B"
                   poolTwo _ _ _ eq_refl eq_refl)).
  repeat constructor; simpl; intuition discriminate.
Defined.

(** ** Names and rows *)

(** For an integer from [-2^53] to [2^53], the range in which every
    integer is a number of the code and is printed in decimal, the
    number [acquireCheckout] reads back from a name it has made is the
    number the name was made from; so different numbers of that range
    make different names. *)
Theorem checkout_name_round_trip z :
  exactNumber z ->
  parseCheckoutNum (checkoutName z) = Some z
  /\ forall b, exactNumber b -> checkoutName z = checkoutName b -> z = b.
Proof.
  intros _. split; [apply parseCheckoutNum_checkoutName|].
  intros b _ H.
  pose proof (parseCheckoutNum_checkoutName z) as Hz.
  rewrite H, parseCheckoutNum_checkoutName in Hz. congruence.
Qed.

Lemma checkout_name_round_trip_witness :
  exactNumber 9007199254740992
  /\ parseCheckoutNum "checkout-9007199254740992" = Some 9007199254740992.
Proof.
  assert (H : exactNumber 9007199254740992)
    by (unfold exactNumber, Z.le; split; vm_compute; discriminate).
  split; [exact H|].
  exact (proj1 (checkout_name_round_trip 9007199254740992 H)).
Defined.

(** Whatever is called on the empty pool, every row of the table has
    status ['free'] or ['locked'], a non-empty repository, and the name
    [checkout-<n>] of some [n >= 1] written without leading zeros. *)
Theorem rows_written E ops :
  Forall rowShape (table (snd (run E ops emptyPool))).
Proof.
  assert (Hrun : forall ops' w,
            Forall rowShape (table w) -> Forall rowShape (table (snd (run E ops' w)))).
  { induction ops' as [|op ops' IH]; intros w H; [exact H|].
    rewrite run_cons. cbn [snd]. apply IH. now apply step_keeps_rowShape. }
  apply Hrun. constructor.
Qed.

(** ** The name of a shared repository ([getSharedRepoDir]) *)

(** The repository name that goes into the directory of a shared
    repository is never empty and never contains a slash, whatever the
    URL; a URL that ends in a slash gets the name [repo]. *)
Theorem repoName_is_segment :
  (forall repoUrl, repoName repoUrl <> ""%string /\ contains "/" (repoName repoUrl) = false)
  /\ (forall base, repoName (base ++ "/") = "repo"%string).
Proof.
  split.
  - intros repoUrl. unfold repoName.
    set (seg := last (splitOn "/" repoUrl) ""%string).
    destruct (String.eqb_spec (stripGitSuffix seg) "") as [_|Hne];
      [split; [discriminate | reflexivity]|].
    split; [exact Hne|].
    destruct (contains "/" (stripGitSuffix seg)) eqn:Hc; [|reflexivity].
    apply stripGitSuffix_contains in Hc.
    assert (Hin : In seg (splitOn "/" repoUrl)) by (apply last_In, splitOn_nonempty).
    apply splitOn_segments in Hin. congruence.
  - intros base. unfold repoName.
    change (base ++ "/")%string with (base ++ String "/" "")%string.
    rewrite last_splitOn by reflexivity. reflexivity.
Qed.

(** For a URL whose last segment is [<name>.git] the repository name is
    [<name>]: exactly one [.git] is taken off the end. *)
Theorem repoName_of_git_url base name :
  name <> ""%string ->
  contains "/" name = false ->
  repoName (base ++ "/" ++ name ++ ".git") = name
  /\ repoName (name ++ ".git") = name.
Proof.
  intros Hne Hslash.
  assert (Hseg : contains "/" (name ++ ".git") = false).
  { rewrite contains_app, Hslash. reflexivity. }
  assert (Hname : (if String.eqb name "" then "repo"%string else name) = name).
  { now destruct (String.eqb_spec name ""). }
  split; unfold repoName.
  - change (base ++ "/" ++ name ++ ".git")%string
      with (base ++ String "/" (name ++ ".git"))%string.
    rewrite (last_splitOn _ _ _ Hseg), stripGitSuffix_git. exact Hname.
  - rewrite (splitOn_single _ _ Hseg). simpl last.
    rewrite stripGitSuffix_git. exact Hname.
Qed.

Lemma repoName_of_git_url_witness :
  repoName "https://github.com/example/repo.git" = "repo"%string
  /\ repoName "repo.git.git" = "repo.git"%string.
Proof.
  split.
  - exact (proj1 (repoName_of_git_url "https://github.com/example" "repo"
                    ltac:(discriminate) eq_refl)).
  - exact (proj2 (repoName_of_git_url "" "repo.git" ltac:(discriminate) eq_refl)).
Defined.

(** ** [filterCheckouts] *)

(** [filterCheckouts] changes nothing, whether it returns or throws; what
    it returns are names that [listCheckouts] shows, each once when the
    names of the table are unique. *)
Theorem filter_returns_stored_names R pattern w :
  snd (filterCheckouts R pattern w) = w
  /\ forall found, fst (filterCheckouts R pattern w) = inr found ->
       (forall name, In name found -> In name (names (listCheckouts w)))
       /\ (primaryKey (table w) -> NoDup found).
Proof.
  split; [apply filterCheckouts_world|].
  intros found. unfold filterCheckouts. destruct pattern as [|c p]; [discriminate|].
  destruct (regExp R (String c p)) as [test|]; [|discriminate].
  simpl. intros [= <-]. split.
  - intros name Hin. rewrite names_listCheckouts.
    apply in_map_iff in Hin as (row & <- & Hrow). apply filter_In in Hrow as [Hrow _].
    apply (proj1 (In_selectCheckoutColumn _ _)) in Hrow. apply in_map_iff. eauto.
  - unfold primaryKey. intros Hnd. apply names_selectCheckoutColumn_NoDup in Hnd.
    revert Hnd. unfold names. generalize (selectCheckoutColumn (table w)). intros t.
    induction t as [|a t IH]; simpl; intros Hnd; [constructor|].
    inversion Hnd as [|? ? Hnotin Hnd']; subst.
    destruct (test (checkout a)); simpl; auto.
    constructor; auto. intros Hin. apply Hnotin.
    apply in_map_iff in Hin as (row & Hr & Hrow). apply filter_In in Hrow as [Hrow _].
    apply in_map_iff. eauto.
Qed.

(** The order of the names found is that of the index of the key, not
    that of insertion. *)
Example filter_order :
  fst (filterCheckouts exampleRuntime "checkout-"
         (mkWorld [mkRow "checkout-2" "A" None None "free";
                   mkRow "checkout-10" "A" None None "free";
                   mkRow "checkout-1" "B" None None "free"] []))
  = inr ["checkout-1"; "checkout-10"; "checkout-2"]%string.
Proof. reflexivity. Qed.

(** ** The command line ([main]) *)

(** [release], [remove] and [filter] (and their aliases) without an
    argument, or with an empty one, print the complaint of the command
    and the usage, exit with status 1, and reach neither the table nor
    the shell: the operations never see an empty name from the command
    line. *)
Theorem cli_missing_argument R E P cmd args w :
  firstArg args = None ->
  (oneOf cmd ["release"; "r"] = true ->
     main R E P (cmd :: args) w
       = (Stderr "Checkout required for release" :: usage, ExitCode 1, w))
  /\ (oneOf cmd ["remove"; "rm"] = true ->
        main R E P (cmd :: args) w
          = (Stderr "Checkout required for remove" :: usage, ExitCode 1, w))
  /\ (oneOf cmd ["filter"; "-F"; "grep"] = true ->
        main R E P (cmd :: args) w
          = (Stderr "Pattern required for filter" :: usage, ExitCode 1, w)).
Proof.
  intros Hargs. unfold oneOf. simpl existsb. repeat split; intros Hcmd;
    repeat (apply orb_true_iff in Hcmd as [Hcmd|Hcmd]); try discriminate;
    apply String.eqb_eq in Hcmd; subst cmd;
    unfold main, dispatch; simpl oneOf; cbv iota; rewrite Hargs; reflexivity.
Qed.

Lemma cli_missing_argument_witness :
  firstArg [""%string] = None
  /\ main exampleRuntime exampleEnv exampleProcess ["rm"; ""]%string poolTwo
     = (Stderr "Checkout required for remove" :: usage, ExitCode 1, poolTwo).
Proof.
  split; [reflexivity|].
  exact (proj1 (proj2 (cli_missing_argument exampleRuntime exampleEnv exampleProcess
                         "rm" [""%string] poolTwo eq_refl)) eq_refl).
Defined.

(** An invocation that exits with status 1 has left the table as it was
    and has printed the usage last. *)
Theorem cli_failure_keeps_table R E P argv w out w' :
  main R E P argv w = (out, ExitCode 1, w') ->
  table w' = table w /\ exists before, out = before ++ usage.
Proof.
  unfold main. destruct argv as [|cmd args]; [discriminate|].
  destruct (oneOf cmd ["help"; "--help"; "-h"; "-H"]); [discriminate|].
  destruct (dispatch R E P cmd args w) as [[t|[o x]] w0] eqn:Hd;
    apply dispatch_table in Hd.
  - intros [= <- <-]. split; [exact Hd|]. now exists [Stderr (thrownMessage R t)].
  - intros [= <- -> <-]. destruct Hd as (_ & -> & ->). split; [reflexivity|].
    now exists [Stdout ("Unknown command: " ++ cmd)%string].
Qed.

Lemma cli_failure_keeps_table_witness :
  main exampleRuntime exampleEnv failingProcess ["acquire"; "A"]%string poolTwo
    = (Stderr "git worktree creation failed: ShellError: Failed with exit code 1" :: usage,
       ExitCode 1,
       mkWorld (table poolTwo) [GitCloneBare "A" "/home/u/.gitproc_pool/shared_repos/A"])
  /\ table (mkWorld (table poolTwo) [GitCloneBare "A" "/home/u/.gitproc_pool/shared_repos/A"])
     = table poolTwo.
Proof.
  split; [reflexivity|].
  exact (proj1 (cli_failure_keeps_table exampleRuntime exampleEnv failingProcess
                  ["acquire"; "A"]%string poolTwo _ _ eq_refl)).
Defined.

(** What [acquire] prints can be handed to [release]: when [acquire]
    returns, it has printed the directory and then [(id: <name>)] of a
    checkout that is now locked, and [release <name>] then prints
    [Released <name>], returns, and leaves the checkout unlocked and the
    names of the table as they were. *)
Theorem cli_acquire_then_release R E P args w out w1 :
  primaryKey (table w) ->
  ~ In ""%string (names (table w)) ->
  main R E P ("acquire"%string :: args) w = (out, Returned, w1) ->
  exists name,
    out = [Stdout (dirOf E name); Stdout ("(id: " ++ name ++ ")")%string]
    /\ In name (lockedNames (table w1))
    /\ forall R' P', exists w2,
         main R' E P' ["release"%string; name] w1
           = ([Stdout ("Released " ++ name)%string], Returned, w2)
         /\ ~ In name (lockedNames (table w2))
         /\ names (table w2) = names (table w1).
Proof.
  intros Hpk Hne. unfold main. simpl oneOf. cbv iota.
  unfold dispatch. simpl oneOf. cbv iota. unfold cmdAcquire.
  destruct (acquireCheckout E P (hd_error args) None w) as [[e|r] wa] eqn:Hacq;
    [discriminate|].
  intros [= <- <-].
  pose proof (acquireCheckout_table _ _ _ _ _ _ _ Hacq) as (_ & repoKey & wr & Hres & _).
  destruct (free_again E P (hd_error args) None w repoKey wr r wa Hpk Hne Hres Hacq)
    as (Hr & Hrel & _ & _).
  destruct (acquire_keeps_lockedAreHeld _ _ _ _ _ _ _ _
              (lockedAreHeld_refl _ Hpk Hne) Hacq) as [_ (_ & _ & Hiff)].
  assert (Hnonempty : id r <> ""%string).
  { intros Heq. rewrite Heq in Hrel. discriminate. }
  exists (id r). split; [rewrite Hr at 1; reflexivity|].
  split; [apply Hiff; now left|].
  intros R' P'. eexists. unfold firstArg.
  destruct (String.eqb_spec (id r) "") as [Heq|_]; [contradiction|].
  unfold cmdRelease. rewrite Hrel. split; [reflexivity|]. cbn [table].
  split; [|apply names_updateWhere].
  rewrite lockedNames_free. tauto.
Qed.

Lemma cli_acquire_then_release_witness :
  exists name,
    [Stdout "/home/u/.gitproc_pool/checkout-3"; Stdout "(id: checkout-3)"]
      = [Stdout (dirOf exampleEnv name); Stdout ("(id: " ++ name ++ ")")%string]
    /\ In name (lockedNames (table (snd (main exampleRuntime exampleEnv exampleProcess
                                           ["acquire"; "B"]%string poolTwo))))
    /\ forall R' P', exists w2,
         main R' exampleEnv P' ["release"%string; name]
              (snd (main exampleRuntime exampleEnv exampleProcess
                      ["acquire"; "B"]%string poolTwo))
           = ([Stdout ("Released " ++ name)%string], Returned, w2)
         /\ ~ In name (lockedNames (table w2))
         /\ names (table w2)
            = names (table (snd (main exampleRuntime exampleEnv exampleProcess
                                   ["acquire"; "B"]%string poolTwo))).
Proof.
  refine (cli_acquire_then_release exampleRuntime exampleEnv exampleProcess ["B"%string]
            poolTwo _ _ _ _ eq_refl).
  - repeat constructor; simpl; intuition discriminate.
  - simpl. intuition discriminate.
Defined.



(** ** The example tool ([runParallelTasks]) *)

(** Whatever happens in it, the tool gives back what it took: after
    [runParallelTasks] the locked checkouts are those that were locked
    before it. *)
Theorem tool_leaves_no_lock R E P w :
  primaryKey (table w) ->
  ~ In ""%string (names (table w)) ->
  forall n, In n (lockedNames (table (snd (runParallelTasks R E P w))))
            <-> In n (lockedNames (table w)).
Proof.
  intros Hpk Hne n. unfold runParallelTasks, acquireForTool.
  destruct (acquireCheckout E P (toolRepo toolOptions) (Some (maxParallelism toolOptions)) w)
    as [[e|r] w1] eqn:Hacq.
  - apply acquireCheckout_table in Hacq. simpl. now rewrite Hacq.
  - destruct (releaseCheckout (id r) w1) as [[e|u] w2] eqn:Hrel; simpl;
      eapply acquire_release_locked; eauto.
Qed.

Lemma tool_leaves_no_lock_witness :
  In "checkout-1"%string
     (lockedNames (table (snd (runParallelTasks exampleRuntime exampleEnv
                                 exampleProcess poolTwo))))
  <-> In "checkout-1"%string (lockedNames (table poolTwo)).
Proof.
  apply (tool_leaves_no_lock exampleRuntime exampleEnv exampleProcess poolTwo).
  - repeat constructor; simpl; intuition discriminate.
  - simpl. intuition discriminate.
Defined.

(** Once three checkouts of its repository exist, the tool gets none,
    even when all of them are free: it prints the limit error, runs no
    command and changes nothing. *)
Theorem tool_refuses_at_three R E P w :
  3 <= countRepo "https://github.com/example/repo.git" (table w) ->
  runParallelTasks R E P w
  = ([Stdout "Acquiring checkout with max parallelism of 3...";
      Stderr ("Error: Maximum checkouts limit (3) reached for repository: "
              ++ "https://github.com/example/repo.git")%string],
     w).
Proof.
  intros Hcount. unfold runParallelTasks, acquireForTool.
  rewrite (acquire_over_limit E P (toolRepo toolOptions) (Some (maxParallelism toolOptions))
             w w "https://github.com/example/repo.git" eq_refl 3 eq_refl Hcount).
  reflexivity.
Qed.

Lemma tool_refuses_at_three_witness :
  3 <= countRepo "https://github.com/example/repo.git" (table poolThreeFree)
  /\ runParallelTasks exampleRuntime exampleEnv exampleProcess poolThreeFree
     = ([Stdout "Acquiring checkout with max parallelism of 3...";
         Stderr ("Error: Maximum checkouts limit (3) reached for repository: "
                 ++ "https://github.com/example/repo.git")%string],
        poolThreeFree).
Proof.
  split; [apply Z.leb_le; vm_compute; reflexivity|].
  apply (tool_refuses_at_three exampleRuntime exampleEnv exampleProcess poolThreeFree).
  apply Z.leb_le. vm_compute. reflexivity.
Defined.
